(** * A chained hash table with doubling / halving capacity

    Shallow embedding of [src/hash_table.py] (class [HashTable]) and the
    properties of its insert / lookup / delete / resize engine.

    The Python object is a pair of a table (a list of buckets, each bucket a
    list of items) and a cached item count.  Methods mutate the object and
    may raise; they are embedded in a state-and-exception monad in which the
    state survives a raise, exactly as the attributes of [self] survive a
    Python exception. *)

From stdpp Require Import base list strings.
From Stdlib Require Import ZArith Lia.

Local Open Scope Z_scope.

(** ** Exceptions and the method monad *)

(** The three exceptions the methods can raise: [KeyError] (raised by
    [_find]), [ZeroDivisionError] (the [%] of [_get_index] on an empty
    table) and [IndexError] (a list subscript out of range). *)
Inductive exn : Type :=
  | KeyError
  | ZeroDivisionError
  | IndexError.

Inductive res (A : Type) : Type :=
  | Ok (a : A)
  | Raise (e : exn).
Arguments Ok {A} a.
Arguments Raise {A} e.

(** A method body over an object of type [S]: it returns a value or raises,
    and in both cases leaves an object behind. *)
Definition M (S A : Type) : Type := S → res A * S.

Definition bind {S A B} (c : M S A) (k : A → M S B) : M S B :=
  λ s, match c s with
       | (Ok a, s') => k a s'
       | (Raise e, s') => (Raise e, s')
       end.

Global Instance M_ret {S} : MRet (M S) := λ A a s, (Ok a, s).
Global Instance M_bind {S} : MBind (M S) := λ A B k c, bind c k.

Definition raise {S A} (e : exn) : M S A := λ s, (Raise e, s).
Definition read {S} : M S S := λ s, (Ok s, s).
Definition put {S} (s : S) : M S unit := λ _, (Ok tt, s).

Global Instance exn_eq_dec : EqDecision exn.
Proof. solve_decision. Defined.

(** [try: c  except e: h] *)
Definition try_except {S A} (c : M S A) (e : exn) (h : M S A) : M S A :=
  λ s, match c s with
       | (Ok a, s') => (Ok a, s')
       | (Raise e', s') => if decide (e' = e) then h s' else (Raise e', s')
       end.

(** [for x in xs: body x] *)
Fixpoint for_each {S A} (xs : list A) (body : A → M S unit) : M S unit :=
  match xs with
  | [] => mret tt
  | x :: xs' => body x ;; for_each xs' body
  end.

(** ** Python list subscripts *)

(** [l[i]] accepts [0 <= i < len(l)] and the negative range
    [-len(l) <= i < 0]; anything else is an [IndexError]. *)
Definition py_index {A} (l : list A) (i : Z) : option nat :=
  let n := Z.of_nat (length l) in
  if decide (0 ≤ i < n) then Some (Z.to_nat i)
  else if decide (- n ≤ i < 0) then Some (Z.to_nat (n + i))
  else None.

(** ** Hashable keys *)

(** The key type is bound by [Hashable]: the builtin [hash] applies to it.
    Keys are values whose [==] is equality and whose hash is a function of
    the value. *)
Class Hashable (K : Type) : Type := hash : K → Z.

(** Python's [hash] on an [int] (CPython, 64-bit): reduction modulo the
    Mersenne prime [2^61 - 1] keeping the sign, with [-1] reserved. *)
Definition hash_int (n : Z) : Z :=
  let m := 2 ^ 61 - 1 in
  let h := Z.sgn n * (Z.abs n `mod` m) in
  if decide (h = -1) then -2 else h.

Global Instance int_hashable : Hashable Z := hash_int.

Section hash_table.
Context {K V : Type} `{EqDecision K} `{Hashable K}.

(** ** Data *)

Record _Item : Type := mk_Item { key : K; value : V }.

Record HashTable : Type := mkHashTable {
  _table : list (list _Item);
  _count_items : Z
}.

Definition _INITIAL_SIZE : Z := 4.
Definition _RESIZE_MUL : Z := 2.

(** [[[] for _ in range(n)]] *)
Definition empty_table (n : Z) : list (list _Item) :=
  replicate (Z.to_nat n) [].

(** ** Index computation and chain search *)

(** [hash(key) % len(self._table)]. Python's [%] takes the sign of the
    divisor, as [Z.modulo] does, and raises on a zero divisor. *)
Definition _get_index (key0 : K) : M HashTable Z :=
  ht ← read;
  let hash_value := hash key0 in
  let n := Z.of_nat (length (_table ht)) in
  if decide (n = 0) then raise ZeroDivisionError
  else
    let index := hash_value `mod` n in
    mret index.

(** [self._table[index]] *)
Definition table_getitem (index : Z) : M HashTable (list _Item) :=
  ht ← read;
  match py_index (_table ht) index with
  | Some i =>
      match _table ht !! i with
      | Some items => mret items
      | None => raise IndexError
      end
  | None => raise IndexError
  end.

(** The [for sub_index, item in enumerate(items)] loop of [_find]: the
    position of the first item whose key equals [key0]. *)
Fixpoint scan (key0 : K) (items : list _Item) (sub_index : Z) : option Z :=
  match items with
  | [] => None
  | item :: rest =>
      if decide (key item = key0) then Some sub_index
      else scan key0 rest (sub_index + 1)
  end.

Definition _find (key0 : K) : M HashTable (Z * Z) :=
  index ← _get_index key0;
  items ← table_getitem index;
  match scan key0 items 0 with
  | Some sub_index => mret (index, sub_index)
  | None => raise KeyError
  end.

(** ** Bucket mutation *)

(** Replace bucket [index] of the table by [f] of it ([f] may fail with an
    [IndexError] of its own): the shape of every in-place mutation of
    [self._table[index]]. *)
Definition bucket_modify (index : Z)
    (f : list _Item → option (list _Item)) : M HashTable unit :=
  ht ← read;
  match py_index (_table ht) index with
  | Some i =>
      match _table ht !! i with
      | Some items =>
          match f items with
          | Some items' =>
              put {| _table := <[i := items']> (_table ht);
                     _count_items := _count_items ht |}
          | None => raise IndexError
          end
      | None => raise IndexError
      end
  | None => raise IndexError
  end.

(** [self._table[index][sub_index].value = value] *)
Definition item_set_value (index sub_index : Z) (value0 : V)
    : M HashTable unit :=
  bucket_modify index (λ items,
    match py_index items sub_index with
    | Some j =>
        match items !! j with
        | Some item =>
            Some (<[j := {| key := key item; value := value0 |}]> items)
        | None => None
        end
    | None => None
    end).

(** [del self._table[index][sub_index]] *)
Definition item_del (index sub_index : Z) : M HashTable unit :=
  bucket_modify index (λ items,
    match py_index items sub_index with
    | Some j => Some (delete j items)
    | None => None
    end).

(** [self._count_items += d] *)
Definition count_add (d : Z) : M HashTable unit :=
  ht ← read;
  put {| _table := _table ht; _count_items := _count_items ht + d |}.

(** ** Insert-or-update, resize, lookup, delete *)

(** [_update] and [_resize] call each other: [_update] ends with
    [self._resize()] when [resize] is true, and [_resize] re-inserts every
    item with [self._update(..., resize=False)].  The recursion is tied
    through the parameter [resize_method], which the rehash instantiates
    with a method that is never reached. *)
Definition _update_with (resize_method : M HashTable unit)
    (key0 : K) (value0 : V) (resize : bool) : M HashTable unit :=
  try_except
    ('(index, sub_index) ← _find key0;
     item_set_value index sub_index value0)
    KeyError
    (let new_item := {| key := key0; value := value0 |} in
     index ← _get_index key0;
     bucket_modify index (λ items, Some (items ++ [new_item])) ;;
     count_add 1 ;;
     if resize then resize_method else mret tt).

Definition _resize : M HashTable unit :=
  ht ← read;
  let expected_size := _count_items ht * _RESIZE_MUL in
  let len_table := Z.of_nat (length (_table ht)) in
  let rehash (new_size : Z) : M HashTable unit :=
    let old_table := _table ht in
    put {| _table := empty_table new_size; _count_items := 0 |} ;;
    for_each old_table (λ items,
      for_each items (λ item,
        _update_with (mret tt) (key item) (value item) false)) in
  if decide (expected_size > len_table) then
    rehash (len_table * _RESIZE_MUL)
  else if decide (expected_size * _RESIZE_MUL < len_table) then
    rehash (len_table `div` _RESIZE_MUL)
  else mret tt.

Definition _update (key0 : K) (value0 : V) (resize : bool)
    : M HashTable unit :=
  _update_with _resize key0 value0 resize.

Definition _get (key0 : K) : M HashTable V :=
  '(index, sub_index) ← _find key0;
  items ← table_getitem index;
  match py_index items sub_index with
  | Some j =>
      match items !! j with
      | Some item => mret (value item)
      | None => raise IndexError
      end
  | None => raise IndexError
  end.

Definition _delete (key0 : K) : M HashTable unit :=
  '(index, sub_index) ← _find key0;
  item_del index sub_index ;;
  count_add (-1) ;;
  _resize.

(** ** Public interface *)

(** [HashTable(initial)]: [initial] is [None] or a dict, given by its
    items in iteration order.  [if initial:] is false for [None] and for
    the empty dict. *)
Definition __init__ (initial : option (list (K * V)))
    : res unit * HashTable :=
  let self := {| _table := empty_table _INITIAL_SIZE;
                 _count_items := 0 |} in
  match initial with
  | Some ((_ :: _) as kvs) =>
      for_each kvs (λ '(key0, value0), _update key0 value0 true) self
  | _ => (Ok tt, self)
  end.

Definition __setitem__ (key0 : K) (value0 : V) : M HashTable unit :=
  _update key0 value0 true.
Definition __getitem__ (key0 : K) : M HashTable V := _get key0.
Definition __delitem__ (key0 : K) : M HashTable unit := _delete key0.
Definition __len__ (ht : HashTable) : Z := _count_items ht.

(** The generators [keys], [values] and [items], as the sequence of
    values they yield: two nested loops, each yield appended to the
    output so far. *)
Definition generate {A} (yield_of : _Item → A) (ht : HashTable) : list A :=
  foldl (λ out items, foldl (λ out item, out ++ [yield_of item]) out items)
        [] (_table ht).

Definition keys : HashTable → list K := generate key.
Definition values : HashTable → list V := generate value.
Definition items : HashTable → list (K * V) :=
  generate (λ item, (key item, value item)).

(** ** Caller scripts and reachable states *)

(** The three operations a caller can perform on a container. *)
Inductive op : Type :=
  | OpSet (key0 : K) (value0 : V)
  | OpGet (key0 : K)
  | OpDel (key0 : K).

(** One operation; the result carries the value read by a lookup. *)
Definition run_op (o : op) : M HashTable (option V) :=
  match o with
  | OpSet key0 value0 => __setitem__ key0 value0 ;; mret None
  | OpGet key0 => value0 ← __getitem__ key0; mret (Some value0)
  | OpDel key0 => __delitem__ key0 ;; mret None
  end.

(** A script of operations, each run on the object the previous one left
    (a caller may catch an exception and go on): the outcomes in order and
    the final object. *)
Fixpoint run_ops (ops : list op) (ht : HashTable)
    : list (res (option V)) * HashTable :=
  match ops with
  | [] => ([], ht)
  | o :: ops' =>
      let '(r, ht') := run_op o ht in
      let '(rs, ht'') := run_ops ops' ht' in
      (r :: rs, ht'')
  end.

(** A state is reachable if some script run on a constructed container
    ends in it. *)
Definition reachable (ht : HashTable) : Prop :=
  ∃ initial ops, ht = (run_ops ops (__init__ initial).2).2.

(** ** Specification-level views *)

Definition capacity (ht : HashTable) : Z := Z.of_nat (length (_table ht)).

(** Every stored item, in bucket order then chain order. *)
Definition all_items (ht : HashTable) : list _Item := concat (_table ht).

Definition entry (item : _Item) : K * V := (key item, value item).

(** The bucket a key is sent to. *)
Definition slot (key0 : K) (t : list (list _Item)) : nat :=
  Z.to_nat (hash key0 `mod` Z.of_nat (length t)).

(** First value stored under a key in a chain. *)
Fixpoint chain_get (key0 : K) (l : list _Item) : option V :=
  match l with
  | [] => None
  | item :: rest =>
      if decide (key item = key0) then Some (value item)
      else chain_get key0 rest
  end.

(** A chain after [key0] is set to [value0] in it: the first item with
    that key gets the value, or a new item goes to the end. *)
Fixpoint chain_set (key0 : K) (value0 : V) (l : list _Item) : list _Item :=
  match l with
  | [] => [{| key := key0; value := value0 |}]
  | item :: rest =>
      if decide (key item = key0)
      then {| key := key item; value := value0 |} :: rest
      else item :: chain_set key0 value0 rest
  end.

(** A chain after its first item with key [key0] is removed. *)
Fixpoint chain_del (key0 : K) (l : list _Item) : list _Item :=
  match l with
  | [] => []
  | item :: rest =>
      if decide (key item = key0) then rest
      else item :: chain_del key0 rest
  end.

(** The chain a key is sent to (empty if the table has no bucket). *)
Definition chain_of (key0 : K) (t : list (list _Item)) : list _Item :=
  default [] (t !! slot key0 t).

(** The table after [key0] is set, resp. removed, in its chain. *)
Definition table_set (key0 : K) (value0 : V) (t : list (list _Item))
    : list (list _Item) :=
  <[slot key0 t := chain_set key0 value0 (chain_of key0 t)]> t.

Definition table_del (key0 : K) (t : list (list _Item))
    : list (list _Item) :=
  <[slot key0 t := chain_del key0 (chain_of key0 t)]> t.

(** The object after [_update(key0, value0, resize=False)]. *)
Definition put_item (key0 : K) (value0 : V) (ht : HashTable) : HashTable :=
  {| _table := table_set key0 value0 (_table ht);
     _count_items :=
       if decide (key0 ∈ key <$> chain_of key0 (_table ht))
       then _count_items ht else _count_items ht + 1 |}.

Definition put_items (l : list _Item) (ht : HashTable) : HashTable :=
  foldl (λ ht' item, put_item (key item) (value item) ht') ht l.

(** The object after a rehash of every item into [new_size] buckets. *)
Definition rehashed (new_size : Z) (ht : HashTable) : HashTable :=
  put_items (concat (_table ht))
    {| _table := empty_table new_size; _count_items := 0 |}.

(** The resize policy in the words of the specification: with [C] the
    capacity and [N] the count, grow to [C * 2] when [N * 2 > C],
    otherwise shrink to [C / 2] when [N * 4 < C], otherwise nothing. *)
Definition resize_policy (C N : Z) : option Z :=
  if decide (N * 2 > C) then Some (C * 2)
  else if decide (N * 4 < C) then Some (C `div` 2)
  else None.

(** The object after the item of [key0] is deleted, before the resize
    check. *)
Definition del_item (key0 : K) (ht : HashTable) : HashTable :=
  {| _table := table_del key0 (_table ht);
     _count_items := _count_items ht + -1 |}.

(** The object the resize check leaves. *)
Definition resized (ht : HashTable) : HashTable :=
  match resize_policy (Z.of_nat (length (_table ht))) (_count_items ht) with
  | Some new_size => rehashed new_size ht
  | None => ht
  end.

(** The object [__setitem__], resp. a successful [__delitem__], leaves. *)
Definition set_state (key0 : K) (value0 : V) (ht : HashTable) : HashTable :=
  if decide (key0 ∈ key <$> chain_of key0 (_table ht))
  then put_item key0 value0 ht
  else resized (put_item key0 value0 ht).

Definition del_state (key0 : K) (ht : HashTable) : HashTable :=
  resized (del_item key0 ht).

(** The object a run of [__setitem__] calls leaves. *)
Definition set_items (kvs : list (K * V)) (ht : HashTable) : HashTable :=
  foldl (λ ht' kv, set_state kv.1 kv.2 ht') ht kvs.

(** The value of the last pair of [kvs] whose key is [key0]. *)
Fixpoint last_value (key0 : K) (kvs : list (K * V)) : option V :=
  match kvs with
  | [] => None
  | (k, v) :: rest =>
      match last_value key0 rest with
      | Some v' => Some v'
      | None => if decide (k = key0) then Some v else None
      end
  end.

(** The script that sets every pair of [kvs] in order. *)
Definition set_script (kvs : list (K * V)) : list op :=
  (λ kv, OpSet kv.1 kv.2) <$> kvs.

(** An item after [value0] is stored under [key0]: the item of that key
    gets the value, any other item is as it was. *)
Definition with_value (key0 : K) (value0 : V) (item : _Item) : _Item :=
  if decide (key item = key0)
  then {| key := key item; value := value0 |}
  else item.

(** What the container maps a key to. *)
Definition get_opt (ht : HashTable) (key0 : K) : option V :=
  chain_get key0 (all_items ht).

(** Every item sits in the bucket its key is sent to. *)
Definition placed (t : list (list _Item)) : Prop :=
  ∀ i chain item, t !! i = Some chain → item ∈ chain →
    slot (key item) t = i.

(** Structural validity: placement, unique keys, exact count. *)
Definition wf (ht : HashTable) : Prop :=
  placed (_table ht) ∧
  NoDup (key <$> all_items ht) ∧
  _count_items ht = Z.of_nat (length (all_items ht)).

(** The invariant of the states between operations. *)
Definition Inv (ht : HashTable) : Prop :=
  wf ht ∧ 1 ≤ capacity ht ∧ 2 * _count_items ht ≤ capacity ht.

(** ** A dictionary as reference *)

(** A Python [dict] seen as the function from keys to the value stored, if
    any, and the three operations on it: [d[k] = v] always succeeds,
    [d[k]] and [del d[k]] raise [KeyError] on a missing key. *)
Definition dict_step (o : op) (d : K → option V)
    : res (option V) * (K → option V) :=
  match o with
  | OpSet key0 value0 =>
      (Ok None, λ k, if decide (k = key0) then Some value0 else d k)
  | OpGet key0 =>
      (match d key0 with
       | Some value0 => Ok (Some value0)
       | None => Raise KeyError
       end, d)
  | OpDel key0 =>
      match d key0 with
      | Some _ => (Ok None, λ k, if decide (k = key0) then None else d k)
      | None => (Raise KeyError, d)
      end
  end.

Fixpoint dict_run (ops : list op) (d : K → option V)
    : list (res (option V)) :=
  match ops with
  | [] => []
  | o :: ops' => (dict_step o d).1 :: dict_run ops' (dict_step o d).2
  end.

(** The dict with the pairs of [kvs], later pairs overriding earlier ones. *)
Definition dict_of (kvs : list (K * V)) : K → option V :=
  λ k, last_value k kvs.

(** ** Load *)

(** The capacity a container reaches when [n] new keys are inserted one
    after the other into a fresh one: [_resize] doubles it each time twice
    the count exceeds it. *)
Fixpoint grown_capacity (n : nat) : Z :=
  match n with
  | O => _INITIAL_SIZE
  | S m =>
      let c := grown_capacity m in
      if decide (Z.of_nat (S m) * _RESIZE_MUL > c) then c * _RESIZE_MUL
      else c
  end.

(** The invariant with the bounds on the load added: the capacity is a
    power of two and at most four times the count plus four. *)
Definition Inv_load (ht : HashTable) : Prop :=
  Inv ht ∧
  capacity ht ≤ 4 * _count_items ht + 4 ∧
  ∃ j : nat, capacity ht = 2 ^ Z.of_nat j.

End hash_table.

(** * Properties *)

Section properties.
Context {K V : Type} `{EqDecision K} `{Hashable K}.

Local Abbreviation HT := (HashTable (K:=K) (V:=V)).
Local Abbreviation Item := (_Item (K:=K) (V:=V)).

Implicit Types (ht : HT) (t : list (list Item)) (l chain : list Item).
Implicit Types (k : K) (v : V).

(** ** Chains *)

Lemma scan_spec k chain s :
  match scan k chain s with
  | Some j => ∃ l1 item l2,
      chain = l1 ++ item :: l2 ∧ key item = k ∧ (k ∉ key <$> l1) ∧
      j = s + Z.of_nat (length l1)
  | None => k ∉ key <$> chain
  end.
Proof.
  revert s. induction chain as [|item rest IH]; intros s; simpl.
  - apply not_elem_of_nil.
  - destruct (decide (key item = k)) as [Heq|Hne].
    + exists [], item, rest. simpl. split_and!; auto using not_elem_of_nil.
      lia.
    + specialize (IH (s + 1)). destruct (scan k rest (s + 1)) as [j|].
      * destruct IH as (l1 & it & l2 & -> & Hk & Hnot & ->).
        exists (item :: l1), it, l2. simpl. split_and!; auto.
        -- rewrite not_elem_of_cons. auto.
        -- lia.
      * rewrite not_elem_of_cons. auto.
Qed.

Lemma chain_get_None k l : chain_get k l = None ↔ k ∉ key <$> l.
Proof.
  induction l as [|item rest IH]; simpl.
  - split; auto using not_elem_of_nil.
  - rewrite not_elem_of_cons.
    destruct (decide (key item = k)) as [Heq|Hne].
    + split; [done|]. intros [? _]. congruence.
    + rewrite IH. split; [intros ?; split; [congruence|done]|].
      intros [_ ?]. done.
Qed.

Lemma chain_get_app k l1 l2 :
  chain_get k (l1 ++ l2) =
    match chain_get k l1 with
    | Some v => Some v
    | None => chain_get k l2
    end.
Proof.
  induction l1 as [|item rest IH]; simpl; [done|].
  destruct (decide (key item = k)); auto.
Qed.

Lemma chain_get_app_r k l1 l2 :
  k ∉ key <$> l1 → chain_get k (l1 ++ l2) = chain_get k l2.
Proof.
  intros Hk. rewrite chain_get_app.
  apply chain_get_None in Hk. by rewrite Hk.
Qed.

Lemma chain_get_Some_elem k v l :
  chain_get k l = Some v → {| key := k; value := v |} ∈ l.
Proof.
  induction l as [|[k' v'] rest IH]; simpl; [done|].
  destruct (decide (k' = k)) as [->|].
  - intros [= ->]. left.
  - intros Hg. right. auto.
Qed.

Lemma chain_get_elem k v l :
  NoDup (key <$> l) → {| key := k; value := v |} ∈ l →
  chain_get k l = Some v.
Proof.
  induction l as [|[k' v'] rest IH]; simpl.
  - intros _ Hin. by apply elem_of_nil in Hin.
  - rewrite NoDup_cons. intros [Hnot Hnd] Hin.
    apply elem_of_cons in Hin as [Heq|Hin].
    + injection Heq as <- <-. by rewrite decide_True.
    + destruct (decide (k' = k)) as [->|]; [|auto].
      exfalso. apply Hnot.
      apply (list_elem_of_fmap_2 key) in Hin. done.
Qed.

(** With unique keys, a chain maps a key to a value exactly when it holds
    that pair, so the map does not depend on the order of the chain. *)
Lemma chain_get_perm k l l' :
  NoDup (key <$> l) → l ≡ₚ l' → chain_get k l = chain_get k l'.
Proof.
  intros Hnd Hp.
  assert (Hnd' : NoDup (key <$> l')) by by rewrite <- Hp.
  destruct (chain_get k l) as [v|] eqn:Hg.
  - symmetry. apply chain_get_elem; [done|].
    rewrite <- Hp. by apply chain_get_Some_elem.
  - destruct (chain_get k l') as [v'|] eqn:Hg'; [|done].
    apply chain_get_Some_elem in Hg'. rewrite <- Hp in Hg'.
    apply (chain_get_elem _ _ _ Hnd) in Hg'. congruence.
Qed.

Lemma chain_set_found k v l1 item l2 :
  key item = k → k ∉ key <$> l1 →
  chain_set k v (l1 ++ item :: l2) =
    l1 ++ {| key := key item; value := v |} :: l2.
Proof.
  intros Hk. induction l1 as [|it rest IH]; simpl.
  - intros _. by rewrite decide_True.
  - rewrite not_elem_of_cons. intros [Hne Hnot].
    rewrite decide_False by done. by rewrite IH.
Qed.

Lemma chain_set_fresh k v l :
  k ∉ key <$> l → chain_set k v l = l ++ [{| key := k; value := v |}].
Proof.
  induction l as [|it rest IH]; simpl; [done|].
  rewrite not_elem_of_cons. intros [Hne Hnot].
  rewrite decide_False by done. by rewrite IH.
Qed.

Lemma chain_del_found k l1 item l2 :
  key item = k → k ∉ key <$> l1 →
  chain_del k (l1 ++ item :: l2) = l1 ++ l2.
Proof.
  intros Hk. induction l1 as [|it rest IH]; simpl.
  - intros _. by rewrite decide_True.
  - rewrite not_elem_of_cons. intros [Hne Hnot].
    rewrite decide_False by done. by rewrite IH.
Qed.

Lemma chain_get_found k l1 item l2 :
  key item = k → k ∉ key <$> l1 →
  chain_get k (l1 ++ item :: l2) = Some (value item).
Proof.
  intros Hk Hnot. rewrite chain_get_app_r by done.
  simpl. by rewrite decide_True.
Qed.

Lemma chain_set_keys k v l :
  k ∈ key <$> l → key <$> chain_set k v l = key <$> l.
Proof.
  induction l as [|it rest IH]; simpl.
  - intros Hin. by apply elem_of_nil in Hin.
  - destruct (decide (key it = k)) as [Heq|Hne]; simpl; [done|].
    intros Hin. apply elem_of_cons in Hin as [?|Hin]; [congruence|].
    f_equal. by apply IH.
Qed.

Lemma chain_get_set k v k' l :
  chain_get k' (chain_set k v l) =
    if decide (k' = k) then Some v else chain_get k' l.
Proof.
  induction l as [|it rest IH]; simpl.
  - destruct (decide (k = k')), (decide (k' = k)); congruence.
  - destruct (decide (key it = k)) as [Heq|Hne]; simpl.
    + destruct (decide (key it = k')), (decide (k' = k)); congruence.
    + destruct (decide (key it = k')), (decide (k' = k)); congruence.
Qed.

Lemma chain_get_del k k' l :
  NoDup (key <$> l) →
  chain_get k' (chain_del k l) =
    if decide (k' = k) then None else chain_get k' l.
Proof.
  induction l as [|it rest IH]; simpl.
  - by destruct (decide (k' = k)).
  - rewrite NoDup_cons. intros [Hnot Hnd].
    destruct (decide (key it = k)) as [Heq|Hne]; simpl.
    + destruct (decide (k' = k)) as [->|Hne'].
      * apply chain_get_None. by rewrite <- Heq.
      * rewrite decide_False by congruence. done.
    + rewrite IH by done.
      destruct (decide (key it = k')), (decide (k' = k)); congruence.
Qed.

Lemma chain_del_absent k l : k ∉ key <$> l → chain_del k l = l.
Proof.
  induction l as [|it rest IH]; simpl; [done|].
  rewrite not_elem_of_cons. intros [Hne Hnot].
  rewrite decide_False by done. by rewrite IH.
Qed.

(** ** Running the methods on a table with at least one bucket *)

Lemma py_index_nat {A} (xs : list A) (j : nat) :
  (j < length xs)%nat → py_index xs (Z.of_nat j) = Some j.
Proof.
  intros Hj. unfold py_index.
  rewrite decide_True by lia. by rewrite Nat2Z.id.
Qed.

Lemma slot_lt k t : t ≠ [] → (slot k t < length t)%nat.
Proof.
  intros Ht. unfold slot.
  assert (0 < Z.of_nat (length t)) by (destruct t; [done|simpl; lia]).
  pose proof (Z.mod_pos_bound (hash k) (Z.of_nat (length t))). lia.
Qed.

Lemma slot_of_nat k t :
  t ≠ [] → Z.of_nat (slot k t) = hash k `mod` Z.of_nat (length t).
Proof.
  intros Ht. unfold slot.
  assert (0 < Z.of_nat (length t)) by (destruct t; [done|simpl; lia]).
  pose proof (Z.mod_pos_bound (hash k) (Z.of_nat (length t))). lia.
Qed.

Lemma chain_of_lookup k t :
  t ≠ [] → t !! slot k t = Some (chain_of k t).
Proof.
  intros Ht. unfold chain_of.
  destruct (lookup_lt_is_Some_2 t (slot k t)) as [c Hc];
    [by apply slot_lt|]. by rewrite Hc.
Qed.

Lemma _get_index_run k ht :
  _table ht ≠ [] →
  _get_index k ht = (Ok (Z.of_nat (slot k (_table ht))), ht).
Proof.
  intros Ht. rewrite slot_of_nat by done.
  unfold _get_index, mbind, M_bind, bind, read. simpl.
  rewrite decide_False; [done|]. destruct (_table ht); [done|simpl; lia].
Qed.

Lemma table_getitem_run k ht :
  _table ht ≠ [] →
  table_getitem (Z.of_nat (slot k (_table ht))) ht =
    (Ok (chain_of k (_table ht)), ht).
Proof.
  intros Ht. unfold table_getitem, mbind, M_bind, bind, read. simpl.
  rewrite py_index_nat by by apply slot_lt.
  by rewrite chain_of_lookup.
Qed.

Lemma _find_run k ht :
  _table ht ≠ [] →
  _find k ht =
    (match scan k (chain_of k (_table ht)) 0 with
     | Some j => Ok (Z.of_nat (slot k (_table ht)), j)
     | None => Raise KeyError
     end, ht).
Proof.
  intros Ht. unfold _find, mbind, M_bind, bind.
  rewrite _get_index_run, table_getitem_run by done.
  by destruct (scan k (chain_of k (_table ht)) 0).
Qed.

Lemma bucket_modify_run k f ht chain' :
  _table ht ≠ [] →
  f (chain_of k (_table ht)) = Some chain' →
  bucket_modify (Z.of_nat (slot k (_table ht))) f ht =
    (Ok tt, {| _table := <[slot k (_table ht) := chain']> (_table ht);
               _count_items := _count_items ht |}).
Proof.
  intros Ht Hf. unfold bucket_modify, mbind, M_bind, bind, read. simpl.
  rewrite py_index_nat by by apply slot_lt.
  by rewrite chain_of_lookup, Hf.
Qed.

Lemma _get_run k ht :
  _table ht ≠ [] →
  _get k ht =
    (match chain_get k (chain_of k (_table ht)) with
     | Some v => Ok v
     | None => Raise KeyError
     end, ht).
Proof.
  intros Ht. unfold _get, mbind, M_bind, bind.
  rewrite _find_run by done.
  pose proof (scan_spec k (chain_of k (_table ht)) 0) as Hs.
  destruct (scan k (chain_of k (_table ht)) 0) as [j|].
  - destruct Hs as (l1 & item & l2 & Hc & Hk & Hnot & ->).
    rewrite table_getitem_run by done. rewrite Hc.
    rewrite chain_get_found by done. rewrite Z.add_0_l.
    rewrite py_index_nat by (rewrite length_app; simpl; lia).
    by rewrite list_lookup_middle.
  - apply chain_get_None in Hs. by rewrite Hs.
Qed.

(** [_update]: an update in place when the key is in its chain, otherwise
    an append, a count increment and, if asked for, the resize method. *)
Lemma _update_with_run r k v (resize : bool) ht :
  _table ht ≠ [] →
  _update_with r k v resize ht =
    if decide (k ∈ key <$> chain_of k (_table ht))
    then (Ok tt, {| _table := table_set k v (_table ht);
                    _count_items := _count_items ht |})
    else (if resize then r else mret tt)
           {| _table := table_set k v (_table ht);
              _count_items := _count_items ht + 1 |}.
Proof.
  intros Ht. unfold _update_with, try_except, mbind, M_bind, bind.
  rewrite _find_run by done.
  pose proof (scan_spec k (chain_of k (_table ht)) 0) as Hs.
  destruct (scan k (chain_of k (_table ht)) 0) as [j|].
  - destruct Hs as (l1 & item & l2 & Hc & Hk & Hnot & ->).
    rewrite decide_True.
    2:{ rewrite Hc, fmap_app, elem_of_app. right. simpl. rewrite Hk. left. }
    unfold item_set_value.
    erewrite bucket_modify_run; [|done|].
    2:{ rewrite Hc, Z.add_0_l.
        rewrite py_index_nat by (rewrite length_app; simpl; lia).
        rewrite list_lookup_middle by done. reflexivity. }
    unfold table_set. rewrite Hc, chain_set_found by done.
    rewrite insert_app_r_alt, Nat.sub_diag by done. done.
  - rewrite (decide_True (P := KeyError = KeyError)) by done.
    rewrite (decide_False (P := k ∈ _)) by done.
    rewrite _get_index_run by done.
    erewrite bucket_modify_run; [|done|reflexivity].
    unfold table_set. rewrite chain_set_fresh by done. done.
Qed.

Lemma _delete_run k ht :
  _table ht ≠ [] →
  _delete k ht =
    if decide (k ∈ key <$> chain_of k (_table ht))
    then _resize {| _table := table_del k (_table ht);
                    _count_items := _count_items ht + -1 |}
    else (Raise KeyError, ht).
Proof.
  intros Ht. unfold _delete, mbind, M_bind, bind.
  rewrite _find_run by done.
  pose proof (scan_spec k (chain_of k (_table ht)) 0) as Hs.
  destruct (scan k (chain_of k (_table ht)) 0) as [j|].
  - destruct Hs as (l1 & item & l2 & Hc & Hk & Hnot & ->).
    rewrite decide_True.
    2:{ rewrite Hc, fmap_app, elem_of_app. right. simpl. rewrite Hk. left. }
    unfold item_del.
    erewrite bucket_modify_run; [|done|].
    2:{ rewrite Hc, Z.add_0_l.
        rewrite py_index_nat by (rewrite length_app; simpl; lia).
        reflexivity. }
    unfold table_del. rewrite Hc, chain_del_found by done.
    rewrite delete_middle. done.
  - by rewrite decide_False by done.
Qed.

(** ** The table as one list of items *)

Lemma elem_of_concat {A} (x : A) (ls : list (list A)) :
  x ∈ concat ls ↔ ∃ xs, xs ∈ ls ∧ x ∈ xs.
Proof.
  induction ls as [|xs ls IH]; simpl.
  - split; [intros Hx; by apply elem_of_nil in Hx|].
    intros (xs & Hxs & _). by apply elem_of_nil in Hxs.
  - rewrite elem_of_app, IH. split.
    + intros [Hx|(ys & Hys & Hx)].
      * exists xs. split; [left|done].
      * exists ys. split; [by right|done].
    + intros (ys & Hys & Hx). apply elem_of_cons in Hys as [->|Hys].
      * by left.
      * right. by exists ys.
Qed.

(** Replacing one chain changes the list of all items in the middle
    only; what lies around it comes from the other buckets. *)
Lemma table_split t i chain :
  t !! i = Some chain →
  ∃ l1 l2,
    concat t = l1 ++ chain ++ l2 ∧
    (∀ chain', concat (<[i := chain']> t) = l1 ++ chain' ++ l2) ∧
    (∀ item, item ∈ l1 ++ l2 →
       ∃ j c, j ≠ i ∧ t !! j = Some c ∧ item ∈ c).
Proof.
  intros Hi.
  assert (Hlt : (i < length t)%nat) by by eapply lookup_lt_Some.
  exists (concat (take i t)), (concat (drop (S i) t)). split_and!.
  - rewrite <- (take_drop_middle t i chain Hi) at 1.
    by rewrite concat_app.
  - intros chain'. rewrite insert_take_drop by done.
    by rewrite concat_app.
  - intros item. rewrite elem_of_app, !elem_of_concat.
    intros [(c & Hc & Hitem)|(c & Hc & Hitem)].
    + apply elem_of_take in Hc as (j & Hj & Hlt').
      exists j, c. split_and!; [lia|done|done].
    + apply list_elem_of_lookup in Hc as (j & Hj).
      rewrite lookup_drop in Hj.
      exists (S i + j)%nat, c. split_and!; [lia|done|done].
Qed.

(** In a placed table a key occurs in its own chain or nowhere. *)
Lemma placed_split k t :
  placed t → t ≠ [] →
  ∃ l1 l2,
    concat t = l1 ++ chain_of k t ++ l2 ∧
    (∀ chain', concat (<[slot k t := chain']> t) = l1 ++ chain' ++ l2) ∧
    (k ∉ key <$> l1) ∧ (k ∉ key <$> l2).
Proof.
  intros Hpl Ht.
  destruct (table_split t (slot k t) (chain_of k t)) as
    (l1 & l2 & Hcat & Hins & Hother); [by apply chain_of_lookup|].
  exists l1, l2. split_and!; [done|done|..].
  - intros Hin. apply list_elem_of_fmap in Hin as (item & -> & Hin).
    destruct (Hother item) as (j & c & Hne & Hj & Hc).
    { apply elem_of_app. by left. }
    apply Hne. symmetry. by eapply Hpl.
  - intros Hin. apply list_elem_of_fmap in Hin as (item & -> & Hin).
    destruct (Hother item) as (j & c & Hne & Hj & Hc).
    { apply elem_of_app. by right. }
    apply Hne. symmetry. by eapply Hpl.
Qed.

Lemma placed_insert k t chain' :
  placed t →
  (∀ item, item ∈ chain' → slot (key item) t = slot k t) →
  placed (<[slot k t := chain']> t).
Proof.
  intros Hpl Hnew i c item Hi Hitem.
  unfold slot. rewrite length_insert. fold (slot (key item) t).
  destruct (decide (i = slot k t)) as [->|Hne].
  - apply list_lookup_insert_Some in Hi as [(_ & <- & _)|[? _]]; [|done].
    by apply Hnew.
  - rewrite list_lookup_insert_ne in Hi by done. by eapply Hpl.
Qed.

Lemma placed_empty n : placed (empty_table (K:=K) (V:=V) n).
Proof.
  intros i c item Hi Hitem. unfold empty_table in Hi.
  apply lookup_replicate_1 in Hi as [-> _]. by apply elem_of_nil in Hitem.
Qed.

Lemma concat_empty n : concat (empty_table (K:=K) (V:=V) n) = [].
Proof.
  unfold empty_table. induction (Z.to_nat n) as [|m IH]; simpl; auto.
Qed.

Lemma length_empty_table n :
  length (empty_table (K:=K) (V:=V) n) = Z.to_nat n.
Proof. apply length_replicate. Qed.

Lemma chain_of_placed k t item :
  placed t → t ≠ [] → item ∈ chain_of k t → slot (key item) t = slot k t.
Proof.
  intros Hpl Ht Hin. eapply Hpl; [|done]. by apply chain_of_lookup.
Qed.

Lemma get_opt_chain k ht :
  placed (_table ht) → _table ht ≠ [] →
  get_opt ht k = chain_get k (chain_of k (_table ht)).
Proof.
  intros Hpl Ht. unfold get_opt, all_items.
  destruct (placed_split k _ Hpl Ht) as (l1 & l2 & -> & _ & Hl1 & Hl2).
  rewrite chain_get_app_r by done. rewrite chain_get_app.
  destruct (chain_get k (chain_of k (_table ht))); [done|].
  by apply chain_get_None.
Qed.

Lemma in_chain_iff k ht :
  placed (_table ht) → _table ht ≠ [] →
  k ∈ key <$> chain_of k (_table ht) ↔ k ∈ key <$> all_items ht.
Proof.
  intros Hpl Ht. unfold all_items.
  destruct (placed_split k _ Hpl Ht) as (l1 & l2 & -> & _ & Hl1 & Hl2).
  rewrite !fmap_app, !elem_of_app. tauto.
Qed.

(** ** Insertion without resize, and the rehash *)

Lemma _update_noresize r k v ht :
  _table ht ≠ [] →
  _update_with r k v false ht = (Ok tt, put_item k v ht).
Proof.
  intros Ht. rewrite _update_with_run by done. unfold put_item.
  by destruct (decide (k ∈ key <$> chain_of k (_table ht))).
Qed.

Lemma _update_resize r k v ht :
  _table ht ≠ [] →
  _update_with r k v true ht =
    if decide (k ∈ key <$> chain_of k (_table ht))
    then (Ok tt, put_item k v ht) else r (put_item k v ht).
Proof.
  intros Ht. rewrite _update_with_run by done. unfold put_item.
  by destruct (decide (k ∈ key <$> chain_of k (_table ht))).
Qed.

Lemma put_item_length k v ht :
  length (_table (put_item k v ht)) = length (_table ht).
Proof. unfold put_item, table_set. simpl. apply length_insert. Qed.

Lemma put_item_nonempty k v ht :
  _table ht ≠ [] → _table (put_item k v ht) ≠ [].
Proof.
  intros Ht Hnil. apply (f_equal length) in Hnil.
  rewrite put_item_length in Hnil. by destruct (_table ht).
Qed.

Lemma put_items_length l ht :
  length (_table (put_items l ht)) = length (_table ht).
Proof.
  revert ht. induction l as [|item l IH]; intros ht; [done|].
  change (put_items (item :: l) ht)
    with (put_items l (put_item (key item) (value item) ht)).
  by rewrite IH, put_item_length.
Qed.

Lemma put_item_get_opt k v k' ht :
  placed (_table ht) → _table ht ≠ [] →
  get_opt (put_item k v ht) k' =
    if decide (k' = k) then Some v else get_opt ht k'.
Proof.
  intros Hpl Ht. unfold get_opt, all_items, put_item, table_set. simpl.
  destruct (placed_split k _ Hpl Ht) as (l1 & l2 & -> & -> & Hl1 & Hl2).
  rewrite !chain_get_app, chain_get_set.
  destruct (decide (k' = k)) as [->|Hne]; [|done].
  apply chain_get_None in Hl1. by rewrite Hl1.
Qed.

(** The items after an insertion: the value of the key's item changes,
    or one new item appears. *)
Lemma put_item_items k v ht :
  placed (_table ht) → _table ht ≠ [] →
  if decide (k ∈ key <$> all_items ht)
  then key <$> all_items (put_item k v ht) = key <$> all_items ht ∧
       _count_items (put_item k v ht) = _count_items ht
  else all_items (put_item k v ht) ≡ₚ
         {| key := k; value := v |} :: all_items ht ∧
       _count_items (put_item k v ht) = _count_items ht + 1.
Proof.
  intros Hpl Ht.
  pose proof (in_chain_iff k ht Hpl Ht) as Hiff.
  unfold all_items, put_item, table_set in *. simpl.
  destruct (placed_split k _ Hpl Ht) as (l1 & l2 & Hcat & -> & Hl1 & Hl2).
  rewrite Hcat in *.
  destruct (decide (k ∈ key <$> l1 ++ chain_of k (_table ht) ++ l2))
    as [Hin|Hnin].
  - apply Hiff in Hin. rewrite decide_True by done. split; [|done].
    by rewrite !fmap_app, chain_set_keys.
  - rewrite <- Hiff in Hnin. rewrite decide_False by done. split; [|done].
    rewrite chain_set_fresh by done.
    rewrite <- (app_assoc (chain_of k (_table ht))). simpl.
    by rewrite <- !Permutation_middle.
Qed.

Lemma put_item_placed k v ht :
  placed (_table ht) → _table ht ≠ [] → placed (_table (put_item k v ht)).
Proof.
  intros Hpl Ht. unfold put_item, table_set. simpl.
  apply placed_insert; [done|]. intros item Hin.
  assert (Hcase : item ∈ chain_of k (_table ht) ∨ key item = k).
  { clear Hpl Ht. induction (chain_of k (_table ht)) as [|it rest IH];
      simpl in Hin.
    - apply list_elem_of_singleton in Hin as ->. by right.
    - destruct (decide (key it = k)) as [Heq|Hne].
      + apply elem_of_cons in Hin as [->|Hin]; [by right|].
        left. by right.
      + apply elem_of_cons in Hin as [->|Hin]; [left; left|].
        destruct (IH Hin) as [?|?]; [left; by right|by right]. }
  destruct Hcase as [Hc| ->]; [|done]. by eapply chain_of_placed.
Qed.

Lemma put_item_wf k v ht :
  wf ht → _table ht ≠ [] → wf (put_item k v ht).
Proof.
  intros (Hpl & Hnd & Hcnt) Ht.
  pose proof (put_item_items k v ht Hpl Ht) as Hit.
  split_and!.
  - by apply put_item_placed.
  - destruct (decide (k ∈ key <$> all_items ht)) as [Hin|Hnin].
    + destruct Hit as [-> _]. done.
    + destruct Hit as [-> _]. simpl. by apply NoDup_cons.
  - destruct (decide (k ∈ key <$> all_items ht)) as [Hin|Hnin].
    + destruct Hit as [Hk ->].
      apply (f_equal length) in Hk. rewrite !length_fmap in Hk.
      by rewrite Hk.
    + destruct Hit as [Hp ->]. rewrite Hp. simpl. lia.
Qed.

Lemma item_eta (item : Item) :
  {| key := key item; value := value item |} = item.
Proof. by destruct item. Qed.

Lemma put_items_spec l ht :
  wf ht → _table ht ≠ [] → NoDup (key <$> l) →
  (∀ k, k ∈ key <$> l → k ∉ key <$> all_items ht) →
  wf (put_items l ht) ∧
  all_items (put_items l ht) ≡ₚ l ++ all_items ht ∧
  _count_items (put_items l ht) = _count_items ht + Z.of_nat (length l).
Proof.
  revert ht. induction l as [|item l IH]; intros ht Hwf Ht Hnd Hfresh.
  { simpl. split_and!; [done|done|lia]. }
  change (put_items (item :: l) ht)
    with (put_items l (put_item (key item) (value item) ht)).
  set (ht1 := put_item (key item) (value item) ht).
  rewrite fmap_cons in Hnd. apply NoDup_cons in Hnd as [Hhd Hnd].
  assert (Hk : key item ∉ key <$> all_items ht).
  { apply Hfresh. rewrite fmap_cons. left. }
  pose proof (put_item_items (key item) (value item) ht
                (proj1 Hwf) Ht) as Hit.
  rewrite decide_False in Hit by done. rewrite item_eta in Hit.
  destruct Hit as [Hperm Hcnt]. fold ht1 in Hperm, Hcnt.
  destruct (IH ht1) as (Hwf' & Hperm' & Hcnt').
  - by apply put_item_wf.
  - by apply put_item_nonempty.
  - done.
  - intros k Hin. rewrite Hperm, fmap_cons, not_elem_of_cons. split.
    + intros ->. done.
    + apply Hfresh. rewrite fmap_cons. by right.
  - split_and!; [done|..].
    + rewrite Hperm', Hperm. simpl. by rewrite Permutation_middle.
    + rewrite Hcnt', Hcnt. simpl length. lia.
Qed.

Lemma for_each_app {A} (xs ys : list A) (body : A → M HT unit) ht :
  for_each (xs ++ ys) body ht = (for_each xs body ;; for_each ys body) ht.
Proof.
  revert ht. induction xs as [|x xs IH]; intros ht; simpl; [done|].
  unfold mbind, M_bind, bind in *.
  destruct (body x ht) as [[[]|e] ht1]; [|done]. apply IH.
Qed.

(** The two nested loops of the rehash visit the items in bucket order
    then chain order. *)
Lemma for_each_nested t (body : Item → M HT unit) ht :
  for_each t (λ chain, for_each chain body) ht =
    for_each (concat t) body ht.
Proof.
  revert ht. induction t as [|chain t IH]; intros ht; simpl; [done|].
  rewrite for_each_app. unfold mbind, M_bind, bind.
  destruct (for_each chain body ht) as [[[]|e] ht1]; [|done]. apply IH.
Qed.

Lemma rehash_loop r l ht :
  _table ht ≠ [] →
  for_each l (λ item, _update_with r (key item) (value item) false) ht =
    (Ok tt, put_items l ht).
Proof.
  revert ht. induction l as [|item l IH]; intros ht Ht; simpl; [done|].
  unfold mbind, M_bind, bind. rewrite _update_noresize by done.
  apply IH. by apply put_item_nonempty.
Qed.

Lemma _resize_run ht :
  _resize ht =
    match resize_policy (capacity ht) (_count_items ht) with
    | Some new_size =>
        for_each (all_items ht)
          (λ item, _update_with (mret tt) (key item) (value item) false)
          {| _table := empty_table new_size; _count_items := 0 |}
    | None => (Ok tt, ht)
    end.
Proof.
  unfold _resize, resize_policy, capacity, all_items, _RESIZE_MUL.
  unfold mbind, M_bind, bind, read, put. simpl.
  destruct (decide (_count_items ht * 2 > Z.of_nat (length (_table ht)))).
  - apply for_each_nested.
  - destruct (decide (_count_items ht * 2 * 2
                      < Z.of_nat (length (_table ht)))).
    + rewrite decide_True by lia. apply for_each_nested.
    + rewrite decide_False by lia. done.
Qed.

Lemma empty_table_nonempty n : 0 < n → empty_table (K:=K) (V:=V) n ≠ [].
Proof.
  intros Hn Hnil. apply (f_equal length) in Hnil.
  rewrite length_empty_table in Hnil. simpl in Hnil. lia.
Qed.

(** On a structurally valid object the resize check never raises. *)
Lemma _resize_wf_run ht : wf ht → _resize ht = (Ok tt, resized ht).
Proof.
  intros (Hpl & Hnd & Hcnt). rewrite _resize_run. unfold resized, capacity.
  destruct (resize_policy _ _) as [c|] eqn:Hpol; [|done].
  destruct (decide (0 < c)) as [Hc|Hc].
  - rewrite rehash_loop; [done|]. simpl. by apply empty_table_nonempty.
  - assert (Hnil : all_items ht = []).
    { apply length_zero_iff_nil. unfold resize_policy in Hpol.
      assert (length (_table ht) = 0%nat → length (all_items ht) = 0%nat)
        by (unfold all_items; by destruct (_table ht)).
      repeat case_decide; simplify_eq; Z.div_mod_to_equations; lia. }
    unfold rehashed. fold (all_items ht). rewrite Hnil. done.
Qed.

Lemma rehashed_spec c ht :
  wf ht → 0 < c →
  wf (rehashed c ht) ∧
  all_items (rehashed c ht) ≡ₚ all_items ht ∧
  _count_items (rehashed c ht) = _count_items ht ∧
  capacity (rehashed c ht) = c.
Proof.
  intros (Hpl & Hnd & Hcnt) Hc. unfold rehashed.
  set (ht0 := {| _table := empty_table c; _count_items := 0 |}).
  assert (Hnil : all_items ht0 = []) by apply concat_empty.
  destruct (put_items_spec (concat (_table ht)) ht0) as (Hwf & Hperm & Hn).
  - split_and!; [apply placed_empty|rewrite Hnil; constructor|].
    rewrite Hnil. done.
  - by apply empty_table_nonempty.
  - done.
  - intros k _. rewrite Hnil. apply not_elem_of_nil.
  - rewrite Hnil, app_nil_r in Hperm. split_and!; [done|done|..].
    + rewrite Hn, Hcnt. unfold all_items. simpl. lia.
    + unfold capacity. rewrite put_items_length. simpl.
      rewrite length_empty_table. lia.
Qed.

Lemma resize_policy_nonneg C N c :
  0 ≤ C → resize_policy C N = Some c → 0 ≤ c.
Proof.
  unfold resize_policy. intros HC Hpol.
  repeat case_decide; simplify_eq; Z.div_mod_to_equations; lia.
Qed.

(** The resize check keeps a valid object valid with the same items and
    count, at the capacity the policy chooses. *)
Lemma resized_spec ht :
  wf ht →
  wf (resized ht) ∧
  all_items (resized ht) ≡ₚ all_items ht ∧
  _count_items (resized ht) = _count_items ht ∧
  capacity (resized ht) =
    default (capacity ht) (resize_policy (capacity ht) (_count_items ht)).
Proof.
  intros Hwf. unfold resized. fold (capacity ht).
  destruct (resize_policy _ _) as [c|] eqn:Hpol; [|done]. simpl.
  assert (0 ≤ c).
  { eapply resize_policy_nonneg; [|done]. unfold capacity. lia. }
  destruct (decide (0 < c)) as [Hc|Hc]; [by apply rehashed_spec|].
  assert (c = 0) as -> by lia.
  destruct Hwf as (Hpl & Hnd & Hcnt).
  assert (Hnil : all_items ht = []).
  { apply length_zero_iff_nil. unfold resize_policy, capacity in Hpol.
    assert (length (_table ht) = 0%nat → length (all_items ht) = 0%nat)
      by (unfold all_items; by destruct (_table ht)).
    repeat case_decide; simplify_eq; Z.div_mod_to_equations; lia. }
  unfold rehashed. fold (all_items ht). rewrite Hnil. simpl.
  split_and!; [|done|by rewrite Hcnt, Hnil|done].
  split_and!; [apply placed_empty|constructor|done].
Qed.

Lemma resized_get_opt k ht : wf ht → get_opt (resized ht) k = get_opt ht k.
Proof.
  intros Hwf. destruct (resized_spec ht Hwf) as (Hwf' & Hperm & _).
  unfold get_opt. apply chain_get_perm; [apply Hwf'|done].
Qed.

(** ** Deletion *)

Lemma chain_split k chain :
  k ∈ key <$> chain →
  ∃ l1 item l2,
    chain = l1 ++ item :: l2 ∧ key item = k ∧ (k ∉ key <$> l1).
Proof.
  intros Hin. pose proof (scan_spec k chain 0) as Hs.
  destruct (scan k chain 0); [|done].
  destruct Hs as (l1 & item & l2 & ? & ? & ? & _). by exists l1, item, l2.
Qed.

Lemma del_item_items k ht :
  placed (_table ht) → _table ht ≠ [] →
  k ∈ key <$> chain_of k (_table ht) →
  ∃ item, key item = k ∧ get_opt ht k = Some (value item) ∧
    all_items ht ≡ₚ item :: all_items (del_item k ht).
Proof.
  intros Hpl Ht Hin. rewrite get_opt_chain by done.
  unfold all_items, del_item, table_del. simpl.
  destruct (placed_split k _ Hpl Ht) as (l1 & l2 & -> & -> & Hl1 & Hl2).
  destruct (chain_split k _ Hin) as (c1 & item & c2 & -> & Hk & Hc1).
  exists item. rewrite chain_del_found, chain_get_found by done.
  split_and!; [done|done|].
  rewrite <- !(app_assoc c1). simpl. by rewrite <- !Permutation_middle.
Qed.

Lemma del_item_wf k ht :
  wf ht → _table ht ≠ [] → k ∈ key <$> chain_of k (_table ht) →
  wf (del_item k ht).
Proof.
  intros (Hpl & Hnd & Hcnt) Ht Hin.
  destruct (del_item_items k ht Hpl Ht Hin) as (item & Hk & _ & Hperm).
  split_and!.
  - unfold del_item, table_del. simpl. apply placed_insert; [done|].
    intros it Hit. eapply chain_of_placed; [done|done|].
    destruct (chain_split k _ Hin) as (c1 & item' & c2 & Hc & Hk' & Hc1).
    rewrite Hc in Hit |- *. rewrite chain_del_found in Hit by done.
    rewrite elem_of_app in Hit. rewrite elem_of_app, elem_of_cons. tauto.
  - rewrite Hperm, fmap_cons in Hnd. by apply NoDup_cons in Hnd as [_ ?].
  - rewrite Hperm in Hcnt. simpl in *. lia.
Qed.

Lemma del_item_get_opt k k' ht :
  wf ht → _table ht ≠ [] →
  get_opt (del_item k ht) k' =
    if decide (k' = k) then None else get_opt ht k'.
Proof.
  intros (Hpl & Hnd & Hcnt) Ht.
  unfold get_opt, all_items, del_item, table_del in *. simpl.
  destruct (placed_split k _ Hpl Ht) as (l1 & l2 & Hcat & -> & Hl1 & Hl2).
  rewrite Hcat in *. rewrite !chain_get_app.
  rewrite chain_get_del.
  2:{ rewrite !fmap_app in Hnd. apply NoDup_app in Hnd as (_ & _ & Hnd).
      by apply NoDup_app in Hnd as (? & _ & _). }
  destruct (decide (k' = k)) as [->|Hne]; [|done].
  apply chain_get_None in Hl1, Hl2. by rewrite Hl1, Hl2.
Qed.

(** ** The invariant of the states between operations *)

Lemma Inv_nonempty ht : Inv ht → _table ht ≠ [].
Proof.
  intros (_ & Hcap & _) Hnil. unfold capacity in Hcap.
  rewrite Hnil in Hcap. simpl in Hcap. lia.
Qed.

Lemma policy_after_insert C N :
  1 ≤ C → 0 ≤ N → 2 * N ≤ C →
  1 ≤ default C (resize_policy C (N + 1)) ∧
  2 * (N + 1) ≤ default C (resize_policy C (N + 1)).
Proof.
  intros. unfold resize_policy.
  repeat case_decide; simpl; Z.div_mod_to_equations; lia.
Qed.

Lemma policy_after_delete C N :
  1 ≤ C → 1 ≤ N → 2 * N ≤ C →
  1 ≤ default C (resize_policy C (N + -1)) ∧
  2 * (N + -1) ≤ default C (resize_policy C (N + -1)).
Proof.
  intros. unfold resize_policy.
  repeat case_decide; simpl; Z.div_mod_to_equations; lia.
Qed.

Lemma in_chain_get_opt k ht :
  placed (_table ht) → _table ht ≠ [] →
  k ∈ key <$> chain_of k (_table ht) ↔ is_Some (get_opt ht k).
Proof.
  intros Hpl Ht. rewrite get_opt_chain by done.
  rewrite <- not_eq_None_Some, chain_get_None.
  split; [auto|]. apply dec_stable.
Qed.

Lemma __setitem___run k v ht :
  Inv ht → __setitem__ k v ht = (Ok tt, set_state k v ht).
Proof.
  intros HInv. pose proof (Inv_nonempty ht HInv) as Ht.
  destruct HInv as (Hwf & _).
  unfold __setitem__, _update, set_state.
  rewrite _update_resize by done. case_decide; [done|].
  apply _resize_wf_run. by apply put_item_wf.
Qed.

Lemma set_state_Inv k v ht : Inv ht → Inv (set_state k v ht).
Proof.
  intros HInv. pose proof (Inv_nonempty ht HInv) as Ht.
  destruct HInv as (Hwf & Hcap & Hload).
  pose proof (put_item_wf k v ht Hwf Ht) as Hwf1.
  pose proof (put_item_items k v ht (proj1 Hwf) Ht) as Hit.
  pose proof (in_chain_iff k ht (proj1 Hwf) Ht) as Hiff.
  assert (Hcap1 : capacity (put_item k v ht) = capacity ht).
  { unfold capacity. by rewrite put_item_length. }
  unfold set_state.
  destruct (decide (k ∈ key <$> all_items ht)) as [Hin|Hin].
  - rewrite decide_True by by apply Hiff.
    destruct Hit as [_ Hcnt]. split_and!; [done|..]; rewrite ?Hcap1; lia.
  - rewrite decide_False by by rewrite Hiff.
    destruct Hit as [_ Hcnt].
    destruct (resized_spec _ Hwf1) as (Hwf2 & _ & Hcnt2 & Hcap2).
    rewrite Hcap1, Hcnt in Hcap2.
    assert (0 ≤ _count_items ht) by (destruct Hwf as (_ & _ & ->); lia).
    destruct (policy_after_insert (capacity ht) (_count_items ht))
      as [? ?]; [done..|].
    split_and!; [done|..]; rewrite Hcap2, ?Hcnt2, ?Hcnt; done.
Qed.

Lemma set_state_get_opt k v k' ht :
  Inv ht →
  get_opt (set_state k v ht) k' =
    if decide (k' = k) then Some v else get_opt ht k'.
Proof.
  intros HInv. pose proof (Inv_nonempty ht HInv) as Ht.
  destruct HInv as (Hwf & _).
  unfold set_state. case_decide.
  - by apply put_item_get_opt; [apply Hwf|].
  - rewrite resized_get_opt by by apply put_item_wf.
    by apply put_item_get_opt; [apply Hwf|].
Qed.

Lemma __getitem___run k ht :
  Inv ht →
  __getitem__ k ht =
    (match get_opt ht k with
     | Some v => Ok v
     | None => Raise KeyError
     end, ht).
Proof.
  intros HInv. pose proof (Inv_nonempty ht HInv) as Ht.
  destruct HInv as ((Hpl & _) & _).
  unfold __getitem__. rewrite _get_run by done.
  by rewrite get_opt_chain.
Qed.

Lemma __delitem___run k ht :
  Inv ht →
  __delitem__ k ht =
    match get_opt ht k with
    | Some _ => (Ok tt, del_state k ht)
    | None => (Raise KeyError, ht)
    end.
Proof.
  intros HInv. pose proof (Inv_nonempty ht HInv) as Ht.
  destruct HInv as (Hwf & _).
  pose proof (in_chain_get_opt k ht (proj1 Hwf) Ht) as Hiff.
  unfold __delitem__. rewrite _delete_run by done.
  case_decide as Hin.
  - pose proof Hin as Hin'. apply Hiff in Hin' as [v ->].
    apply _resize_wf_run. by apply del_item_wf.
  - destruct (get_opt ht k) eqn:Hg; [|done].
    exfalso. apply Hin, Hiff. by eexists.
Qed.

Lemma del_state_Inv k ht :
  Inv ht → is_Some (get_opt ht k) → Inv (del_state k ht).
Proof.
  intros HInv Hsome. pose proof (Inv_nonempty ht HInv) as Ht.
  destruct HInv as (Hwf & Hcap & Hload).
  apply (in_chain_get_opt k ht (proj1 Hwf) Ht) in Hsome.
  pose proof (del_item_wf k ht Hwf Ht Hsome) as Hwf1.
  destruct (del_item_items k ht (proj1 Hwf) Ht Hsome)
    as (item & _ & _ & Hperm).
  assert (1 ≤ _count_items ht).
  { destruct Hwf as (_ & _ & ->). rewrite Hperm. simpl. lia. }
  destruct (resized_spec _ Hwf1) as (Hwf2 & _ & Hcnt2 & Hcap2).
  assert (Hcap1 : capacity (del_item k ht) = capacity ht).
  { unfold capacity, del_item, table_del. simpl. by rewrite length_insert. }
  rewrite Hcap1 in Hcap2. simpl in Hcap2, Hcnt2.
  destruct (policy_after_delete (capacity ht) (_count_items ht))
    as [? ?]; [done..|].
  unfold del_state.
  split_and!; [done|..]; rewrite Hcap2, ?Hcnt2; done.
Qed.

Lemma del_state_get_opt k k' ht :
  Inv ht → is_Some (get_opt ht k) →
  get_opt (del_state k ht) k' =
    if decide (k' = k) then None else get_opt ht k'.
Proof.
  intros HInv Hsome. pose proof (Inv_nonempty ht HInv) as Ht.
  destruct HInv as (Hwf & _).
  apply (in_chain_get_opt k ht (proj1 Hwf) Ht) in Hsome.
  unfold del_state. rewrite resized_get_opt by by apply del_item_wf.
  by apply del_item_get_opt.
Qed.

(** ** Construction, scripts and reachable states *)

Lemma Inv_fresh : Inv ((__init__ (K:=K) (V:=V) None).2).
Proof.
  simpl. split_and!; [|done|done].
  split_and!; [apply placed_empty|constructor|done].
Qed.

Lemma set_items_Inv kvs ht : Inv ht → Inv (set_items kvs ht).
Proof.
  revert ht. induction kvs as [|[k v] kvs IH]; intros ht HInv; [done|].
  apply IH. by apply set_state_Inv.
Qed.

Lemma set_loop_run kvs ht :
  Inv ht →
  for_each kvs (λ '(k, v), _update k v true) ht =
    (Ok tt, set_items kvs ht).
Proof.
  revert ht. induction kvs as [|[k v] kvs IH]; intros ht HInv; [done|].
  simpl. unfold mbind, M_bind, bind.
  fold (__setitem__ k v). rewrite __setitem___run by done.
  apply IH. by apply set_state_Inv.
Qed.

Lemma __init___run initial :
  __init__ (K:=K) (V:=V) initial =
    (Ok tt, set_items (default [] initial) (__init__ None).2).
Proof.
  destruct initial as [[|kv kvs]|]; [done| |done].
  unfold __init__ at 1. rewrite set_loop_run; [done|apply Inv_fresh].
Qed.

Lemma run_op_Inv o ht : Inv ht → Inv (run_op o ht).2.
Proof.
  intros HInv. destruct o as [k v|k|k]; simpl; unfold mbind, M_bind, bind.
  - rewrite __setitem___run by done. simpl. by apply set_state_Inv.
  - rewrite __getitem___run by done. by destruct (get_opt ht k).
  - rewrite __delitem___run by done.
    destruct (get_opt ht k) eqn:Hg; [|done]. simpl.
    apply del_state_Inv; [done|]. by eexists.
Qed.

Lemma run_ops_Inv ops ht : Inv ht → Inv (run_ops ops ht).2.
Proof.
  revert ht. induction ops as [|o ops IH]; intros ht HInv; [done|].
  simpl. pose proof (run_op_Inv o ht HInv) as H1.
  destruct (run_op o ht) as [r ht1]. specialize (IH ht1 H1).
  by destruct (run_ops ops ht1).
Qed.

Lemma reachable_Inv ht : reachable ht → Inv ht.
Proof.
  intros (initial & ops & ->). apply run_ops_Inv.
  rewrite __init___run. simpl. apply set_items_Inv, Inv_fresh.
Qed.

Lemma reachable_fresh : reachable ((__init__ (K:=K) (V:=V) None).2).
Proof. by exists None, []. Qed.

Lemma run_ops_app ops1 ops2 ht :
  run_ops (ops1 ++ ops2) ht =
    ((run_ops ops1 ht).1 ++ (run_ops ops2 (run_ops ops1 ht).2).1,
     (run_ops ops2 (run_ops ops1 ht).2).2).
Proof.
  revert ht. induction ops1 as [|o ops1 IH]; intros ht; simpl.
  - by destruct (run_ops ops2 ht).
  - destruct (run_op o ht) as [r ht1]. rewrite IH.
    by destruct (run_ops ops1 ht1).
Qed.

Lemma reachable_step ops ht : reachable ht → reachable (run_ops ops ht).2.
Proof.
  intros (initial & ops0 & ->). exists initial, (ops0 ++ ops).
  by rewrite run_ops_app.
Qed.

Lemma run_set_script kvs ht :
  Inv ht →
  run_ops (set_script kvs) ht =
    (replicate (length kvs) (Ok None), set_items kvs ht).
Proof.
  revert ht. induction kvs as [|[k v] kvs IH]; intros ht HInv; [done|].
  simpl. unfold mbind, M_bind, bind.
  rewrite __setitem___run by done. simpl.
  unfold set_script in IH. by rewrite IH by by apply set_state_Inv.
Qed.

Lemma set_items_get_opt kvs ht k :
  Inv ht →
  get_opt (set_items kvs ht) k =
    match last_value k kvs with
    | Some v => Some v
    | None => get_opt ht k
    end.
Proof.
  revert ht. induction kvs as [|[k' v'] kvs IH]; intros ht HInv; [done|].
  change (set_items ((k', v') :: kvs) ht)
    with (set_items kvs (set_state k' v' ht)).
  rewrite IH by by apply set_state_Inv. simpl.
  destruct (last_value k kvs); [done|].
  rewrite set_state_get_opt by done.
  destruct (decide (k = k')), (decide (k' = k)); congruence.
Qed.

Lemma get_opt_fresh k : get_opt ((__init__ (K:=K) (V:=V) None).2) k = None.
Proof. reflexivity. Qed.

Lemma last_value_None k (kvs : list (K * V)) :
  last_value k kvs = None ↔ k ∉ kvs.*1.
Proof.
  induction kvs as [|[k' v'] kvs IH]; simpl.
  - split; [intros _; apply not_elem_of_nil|done].
  - rewrite not_elem_of_cons, <- IH.
    destruct (last_value k kvs).
    { split; [done|]. by intros [_ ?]. }
    destruct (decide (k' = k)) as [Heq|Hne].
    + split; [done|]. intros [? _]. congruence.
    + split; [|done]. intros _. split; [congruence|done].
Qed.

Lemma last_value_elem k v (kvs : list (K * V)) :
  NoDup kvs.*1 → last_value k kvs = Some v ↔ (k, v) ∈ kvs.
Proof.
  revert v. induction kvs as [|[k' v'] kvs IH]; intros v; simpl.
  - intros _. split; [done|]. intros Hin. by apply elem_of_nil in Hin.
  - rewrite NoDup_cons. intros [Hnot Hnd]. rewrite elem_of_cons.
    destruct (last_value k kvs) as [v0|] eqn:Hl.
    + rewrite <- (IH v Hnd). split; [auto|]. intros [[= -> ->]|?]; [|done].
      exfalso. apply Hnot.
      assert (Hin : (k', v0) ∈ kvs) by by apply IH.
      by apply (list_elem_of_fmap_2 fst) in Hin.
    + apply last_value_None in Hl.
      destruct (decide (k' = k)) as [->|Hne].
      * split; [intros [= ->]; by left|].
        intros [[= ->]|Hin]; [done|].
        by apply (list_elem_of_fmap_2 fst) in Hin.
      * split; [done|]. intros [[= -> ->]|Hin]; [done|].
        by apply (list_elem_of_fmap_2 fst) in Hin.
Qed.

(** ** The generators *)

Lemma generate_spec {A} (f : Item → A) ht :
  generate f ht = f <$> all_items ht.
Proof.
  unfold generate, all_items.
  assert (Hinner : ∀ chain out,
    foldl (λ out item, out ++ [f item]) out chain = out ++ (f <$> chain)).
  { induction chain as [|item chain IH]; intros out; simpl.
    - by rewrite app_nil_r.
    - rewrite IH, <- app_assoc. done. }
  assert (Houter : ∀ t out,
    foldl (λ out chain, foldl (λ out item, out ++ [f item]) out chain)
      out t = out ++ (f <$> concat t)).
  { induction t as [|chain t IH]; intros out; simpl.
    - by rewrite app_nil_r.
    - rewrite IH, Hinner, fmap_app, app_assoc. done. }
  apply (Houter _ []).
Qed.

Lemma items_spec ht : items ht = entry <$> all_items ht.
Proof. apply generate_spec. Qed.

Lemma keys_spec ht : keys ht = key <$> all_items ht.
Proof. apply generate_spec. Qed.

Lemma keys_items ht : keys ht = (items ht).*1.
Proof.
  rewrite keys_spec, items_spec, <- list_fmap_compose. done.
Qed.

Lemma elem_of_items k v ht :
  wf ht → (k, v) ∈ items ht ↔ get_opt ht k = Some v.
Proof.
  intros (_ & Hnd & _). rewrite items_spec. unfold get_opt. split.
  - intros Hin. apply list_elem_of_fmap in Hin as ([k' v'] & [= -> ->] & Hin).
    by apply chain_get_elem.
  - intros Hg. apply chain_get_Some_elem in Hg.
    by apply (list_elem_of_fmap_2 entry) in Hg.
Qed.

Lemma elem_of_keys k ht : wf ht → k ∈ keys ht ↔ is_Some (get_opt ht k).
Proof.
  intros Hwf. rewrite keys_spec. unfold get_opt.
  rewrite <- not_eq_None_Some, chain_get_None.
  split; [auto|]. apply dec_stable.
Qed.

Lemma NoDup_keys ht : wf ht → NoDup (keys ht).
Proof. intros (_ & Hnd & _). by rewrite keys_spec. Qed.

Lemma NoDup_items ht : wf ht → NoDup (items ht).
Proof.
  intros Hwf. apply (NoDup_fmap_1 fst). rewrite <- keys_items.
  by apply NoDup_keys.
Qed.

Lemma len_items ht : wf ht → __len__ ht = Z.of_nat (length (items ht)).
Proof.
  intros (_ & _ & Hcnt). rewrite items_spec, length_fmap. done.
Qed.

(** A valid container whose lookups agree with a duplicate-free list of
    pairs holds exactly those pairs. *)
Lemma items_perm ht (kvs : list (K * V)) :
  wf ht → NoDup kvs →
  (∀ k v, get_opt ht k = Some v ↔ (k, v) ∈ kvs) →
  items ht ≡ₚ kvs.
Proof.
  intros Hwf Hnd Hget. apply NoDup_Permutation.
  - by apply NoDup_items.
  - done.
  - intros [k v]. rewrite elem_of_items by done. apply Hget.
Qed.

(** ** The methods on an arbitrary object *)

Lemma _find_empty k ht :
  _table ht = [] → _find k ht = (Raise ZeroDivisionError, ht).
Proof.
  intros Ht. unfold _find, _get_index, mbind, M_bind, bind, read. simpl.
  by rewrite Ht.
Qed.

Lemma _update_with_empty r k v (resize : bool) ht :
  _table ht = [] →
  _update_with r k v resize ht = (Raise ZeroDivisionError, ht).
Proof.
  intros Ht. unfold _update_with, try_except, mbind, M_bind, bind.
  by rewrite _find_empty.
Qed.

Lemma rehash_loop_empty r l ht :
  _table ht = [] →
  for_each l (λ item, _update_with r (key item) (value item) false) ht =
    (match l with [] => Ok tt | _ => Raise ZeroDivisionError end, ht).
Proof.
  intros Ht. destruct l as [|item l]; [done|]. simpl.
  unfold mbind, M_bind, bind. by rewrite _update_with_empty.
Qed.

(** The rehash loop on any object: it stops at once on a table without
    buckets and otherwise inserts every item. *)
Lemma rehash_loop_any r l ht :
  for_each l (λ item, _update_with r (key item) (value item) false) ht =
    if decide (_table ht = []) then
      (match l with [] => Ok tt | _ => Raise ZeroDivisionError end, ht)
    else (Ok tt, put_items l ht).
Proof.
  case_decide; [by apply rehash_loop_empty|by apply rehash_loop].
Qed.

Lemma _resize_capacity ht :
  capacity (_resize ht).2 =
    default (capacity ht) (resize_policy (capacity ht) (_count_items ht)).
Proof.
  rewrite _resize_run.
  destruct (resize_policy _ _) as [c|] eqn:Hpol; [|done]. simpl.
  assert (0 ≤ c).
  { eapply resize_policy_nonneg; [|done]. unfold capacity. lia. }
  rewrite rehash_loop_any. simpl. unfold capacity. case_decide as Hnil.
  - simpl. rewrite length_empty_table. lia.
  - simpl. rewrite put_items_length. simpl.
    rewrite length_empty_table. lia.
Qed.

Lemma _resize_no_KeyError ht : (_resize ht).1 ≠ Raise KeyError.
Proof.
  rewrite _resize_run. destruct (resize_policy _ _) as [c|]; [|done].
  rewrite rehash_loop_any. case_decide; [|done].
  by destruct (all_items ht).
Qed.

(** ** Round trip, resize transparency, resize policy *)

(** C1. For every key [k] and value [v], on every reachable container,
    [set(k, v)] succeeds and a following [get(k)] returns [v], whatever
    the container held before. *)
Theorem set_then_get k v ht :
  reachable ht →
  ∃ ht', __setitem__ k v ht = (Ok tt, ht') ∧
         __getitem__ k ht' = (Ok v, ht').
Proof.
  intros HInv%reachable_Inv. exists (set_state k v ht).
  rewrite __setitem___run by done. split; [done|].
  rewrite __getitem___run by by apply set_state_Inv.
  rewrite set_state_get_opt by done. by rewrite decide_True.
Qed.

(** C2. For every [N] and every [N] inserts with distinct keys into a
    fresh container: every insert succeeds, every later [get] of an
    inserted key returns its value, [len()] is [N] and the container
    holds exactly the inserted pairs (none lost, none duplicated).  And
    the resize check, run on any structurally valid object, succeeds and
    leaves the count and the stored pairs as they were, re-bucketed at the
    capacity the policy chooses. *)
Theorem resize_transparency :
  (∀ kvs : list (K * V), NoDup kvs.*1 →
     let run := run_ops (set_script kvs) (__init__ None).2 in
     run.1 = replicate (length kvs) (Ok None) ∧
     (∀ k v, (k, v) ∈ kvs → __getitem__ k run.2 = (Ok v, run.2)) ∧
     __len__ run.2 = Z.of_nat (length kvs) ∧
     items run.2 ≡ₚ kvs) ∧
  (∀ ht, wf ht →
     ∃ ht', _resize ht = (Ok tt, ht') ∧
            wf ht' ∧
            __len__ ht' = __len__ ht ∧
            items ht' ≡ₚ items ht ∧
            capacity ht' =
              default (capacity ht)
                      (resize_policy (capacity ht) (__len__ ht))).
Proof.
  split.
  - intros kvs Hnd run. subst run.
    rewrite run_set_script by apply Inv_fresh. simpl.
    set (ht := set_items kvs _).
    assert (HInv : Inv ht) by apply set_items_Inv, Inv_fresh.
    assert (Hget : ∀ k v, get_opt ht k = Some v ↔ (k, v) ∈ kvs).
    { intros k v. unfold ht. rewrite set_items_get_opt by apply Inv_fresh.
      rewrite get_opt_fresh, <- last_value_elem by done.
      by destruct (last_value k kvs). }
    assert (Hperm : items ht ≡ₚ kvs).
    { apply items_perm; [apply HInv|by eapply NoDup_fmap_1|done]. }
    split_and!; [done| |by rewrite len_items, Hperm by apply HInv|done].
    intros k v Hin. rewrite __getitem___run by done.
    apply Hget in Hin. by rewrite Hin.
  - intros ht Hwf. exists (resized ht).
    destruct (resized_spec ht Hwf) as (Hwf' & Hperm & Hcnt & Hcap).
    split_and!; [by apply _resize_wf_run|done|done| |done].
    by rewrite !items_spec, Hperm.
Qed.

(** C3. The resize check does what the policy says: with [C] the current
    capacity and [N] the current count, the capacity becomes [C * 2] if
    [N * 2 > C], otherwise [C / 2] if [N * 4 < C], and otherwise the
    object is left as it is.  The policy tests the growth condition first
    and yields at most one new capacity. *)
Theorem resize_check_policy ht :
  match resize_policy (capacity ht) (__len__ ht) with
  | Some new_size => capacity (_resize ht).2 = new_size
  | None => _resize ht = (Ok tt, ht)
  end.
Proof.
  pose proof (_resize_capacity ht) as Hcap.
  pose proof (_resize_run ht) as Hrun. unfold __len__.
  by destruct (resize_policy _ _).
Qed.

(** ** Lookup and deletion failures *)

Lemma keys_get_opt_None k ht : wf ht → k ∉ keys ht ↔ get_opt ht k = None.
Proof.
  intros Hwf. rewrite elem_of_keys by done.
  rewrite <- not_eq_None_Some. split; [apply dec_stable|auto].
Qed.

(** C4. On a reachable container [get(key)] and [delete(key)] fail with
    KeyNotFound exactly when no stored entry has the key; when the key is
    stored with value [v], [get] returns [v] and [delete] removes exactly
    that entry; and [delete(k)] after [set(k, v)] succeeds, after which
    [get(k)] fails with KeyNotFound. *)
Theorem key_not_found_iff k ht :
  reachable ht →
  ((__getitem__ k ht).1 = Raise KeyError ↔ k ∉ keys ht) ∧
  ((__delitem__ k ht).1 = Raise KeyError ↔ k ∉ keys ht) ∧
  (∀ v, (k, v) ∈ items ht →
     __getitem__ k ht = (Ok v, ht) ∧
     ∃ ht', __delitem__ k ht = (Ok tt, ht') ∧
            items ht ≡ₚ (k, v) :: items ht' ∧
            (k ∉ keys ht') ∧
            __len__ ht' = __len__ ht - 1) ∧
  (∀ v, ∃ ht1 ht2,
     __setitem__ k v ht = (Ok tt, ht1) ∧
     __delitem__ k ht1 = (Ok tt, ht2) ∧
     __getitem__ k ht2 = (Raise KeyError, ht2)).
Proof.
  intros HInv%reachable_Inv. pose proof HInv as (Hwf & _).
  rewrite keys_get_opt_None by done.
  rewrite __getitem___run, __delitem___run by done.
  split_and!.
  - by destruct (get_opt ht k).
  - by destruct (get_opt ht k).
  - intros v Hin. pose proof Hin as Hg.
    apply elem_of_items in Hg; [|done]. rewrite Hg. split; [done|].
    assert (Hsome : is_Some (get_opt ht k)) by by eexists.
    pose proof (del_state_Inv k ht HInv Hsome) as HInv'.
    pose proof HInv' as (Hwf' & _).
    assert (Hgone : get_opt (del_state k ht) k = None).
    { rewrite del_state_get_opt by done. by rewrite decide_True. }
    assert (Hperm : items ht ≡ₚ (k, v) :: items (del_state k ht)).
    { apply items_perm; [done| |].
      - apply NoDup_cons. split; [|by apply NoDup_items].
        rewrite elem_of_items by done. by rewrite Hgone.
      - intros k' v'. rewrite elem_of_cons, elem_of_items by done.
        rewrite del_state_get_opt by done.
        destruct (decide (k' = k)) as [->|Hne].
        + rewrite Hg. split; [intros [= ->]; by left|].
          by intros [[= ->]|?].
        + split; [by right|]. by intros [[= -> ->]|?]. }
    exists (del_state k ht). split_and!; [done|done|..].
    + by apply keys_get_opt_None.
    + rewrite (len_items ht), (len_items (del_state k ht)) by done.
      rewrite Hperm. simpl. lia.
  - intros v. exists (set_state k v ht), (del_state k (set_state k v ht)).
    pose proof (set_state_Inv k v ht HInv) as HInv1.
    assert (Hg : get_opt (set_state k v ht) k = Some v).
    { rewrite set_state_get_opt by done. by rewrite decide_True. }
    assert (Hsome : is_Some (get_opt (set_state k v ht) k)) by by eexists.
    rewrite __setitem___run, __delitem___run, Hg by done.
    split_and!; [done|done|].
    rewrite __getitem___run by by apply del_state_Inv.
    rewrite del_state_get_opt by done. by rewrite decide_True.
Qed.

(** C10. When [get(key)] or [delete(key)] fails with KeyNotFound the
    object is left exactly as it was: the table, every chain and entry,
    the capacity and the count.  This holds on every object. *)
Theorem key_error_leaves_unchanged k ht :
  ((__getitem__ k ht).1 = Raise KeyError → (__getitem__ k ht).2 = ht) ∧
  ((__delitem__ k ht).1 = Raise KeyError → (__delitem__ k ht).2 = ht).
Proof.
  unfold __getitem__, __delitem__.
  destruct (decide (_table ht = [])) as [Hnil|Hne].
  - unfold _get, _delete, mbind, M_bind, bind.
    rewrite _find_empty by done. done.
  - rewrite _get_run, _delete_run by done. split; [done|].
    case_decide; [|done].
    intros Herr. by apply _resize_no_KeyError in Herr.
Qed.

(** ** Uniqueness and count *)

Lemma set_script_state (kvs : list (K * V)) :
  let ht := (run_ops (set_script kvs) (__init__ None).2).2 in
  NoDup (keys ht) ∧
  (∀ k, k ∈ keys ht ↔ k ∈ kvs.*1) ∧
  (∀ k v, (k, v) ∈ items ht ↔ last_value k kvs = Some v) ∧
  __len__ ht = Z.of_nat (length (remove_dups kvs.*1)).
Proof.
  intros ht. subst ht.
  rewrite run_set_script by apply Inv_fresh. simpl.
  set (ht := set_items kvs _).
  assert (HInv : Inv ht) by apply set_items_Inv, Inv_fresh.
  pose proof HInv as (Hwf & _).
  assert (Hget : ∀ k, get_opt ht k = last_value k kvs).
  { intros k. unfold ht. rewrite set_items_get_opt by apply Inv_fresh.
    rewrite get_opt_fresh. by destruct (last_value k kvs). }
  assert (Hkeys : ∀ k, k ∈ keys ht ↔ k ∈ kvs.*1).
  { intros k. rewrite elem_of_keys, Hget by done.
    rewrite <- not_eq_None_Some, last_value_None.
    split; [apply dec_stable|auto]. }
  split_and!; [by apply NoDup_keys|done|..].
  - intros k v. by rewrite elem_of_items, Hget.
  - rewrite len_items by done.
    replace (length (items ht)) with (length (keys ht))
      by by rewrite keys_items, length_fmap.
    f_equal. apply Permutation_length, NoDup_Permutation.
    + by apply NoDup_keys.
    + apply NoDup_remove_dups.
    + intros k. by rewrite Hkeys, elem_of_remove_dups.
Qed.

(** C5. After any sequence of [set] calls on a fresh container there is
    exactly one entry per distinct key of the sequence and it holds the
    value of the last [set] for that key.  At every point of the sequence
    [len()] is the number of distinct keys set so far (a sequence of [set]
    calls deletes nothing).  In every reachable state the keys are unique
    and [len()] is the number of stored entries. *)
Theorem set_sequence_uniqueness :
  (∀ kvs : list (K * V),
     let ht := (run_ops (set_script kvs) (__init__ None).2).2 in
     NoDup (keys ht) ∧
     (∀ k, k ∈ keys ht ↔ k ∈ kvs.*1) ∧
     (∀ k v, (k, v) ∈ items ht ↔ last_value k kvs = Some v) ∧
     (∀ n, __len__ (run_ops (set_script (take n kvs)) (__init__ None).2).2
           = Z.of_nat (length (remove_dups (take n kvs).*1)))) ∧
  (∀ ht, reachable ht →
     NoDup (keys ht) ∧ __len__ ht = Z.of_nat (length (items ht))).
Proof.
  split.
  - intros kvs ht.
    destruct (set_script_state kvs) as (Hnd & Hkeys & Hitems & _).
    split_and!; [done|done|done|].
    intros n. by destruct (set_script_state (take n kvs)) as (_ & _ & _ & ?).
  - intros ht (Hwf & _)%reachable_Inv.
    split; [by apply NoDup_keys|by apply len_items].
Qed.

(** ** Capacity *)

Lemma run_del_all ks ht :
  Inv ht → NoDup ks → (∀ k, k ∈ ks → is_Some (get_opt ht k)) →
  (run_ops (OpDel <$> ks) ht).1 = replicate (length ks) (Ok None).
Proof.
  revert ht. induction ks as [|k ks IH]; intros ht HInv Hnd Hin; [done|].
  apply NoDup_cons in Hnd as [Hk Hnd].
  assert (Hsome : is_Some (get_opt ht k)) by (apply Hin; left).
  rewrite fmap_cons. simpl. unfold mbind, M_bind, bind.
  rewrite __delitem___run by done. destruct Hsome as [v Hg].
  rewrite Hg. simpl.
  specialize (IH (del_state k ht)).
  destruct (run_ops (OpDel <$> ks) (del_state k ht)) as [rs ht'].
  simpl in *. f_equal. apply IH.
  - apply del_state_Inv; [done|]. by eexists.
  - done.
  - intros k' Hk'. rewrite del_state_get_opt by (done || by eexists).
    rewrite decide_False by (intros ->; done). apply Hin. by right.
Qed.

(** C6. In every state reachable from construction by [set], [get] and
    [delete] the capacity is at least 1, so the index computation does
    not divide by zero and yields a bucket position.  And a script that
    inserts entries with distinct keys (ten, or any number), deletes them
    all and inserts a new entry runs without a failure, after which [get]
    on the new key returns its value. *)
Theorem capacity_at_least_one :
  (∀ ht, reachable ht →
     1 ≤ capacity ht ∧
     ∀ k, ∃ index, _get_index k ht = (Ok index, ht) ∧
                   0 ≤ index < capacity ht) ∧
  (∀ (kvs : list (K * V)) k' v', NoDup kvs.*1 →
     (run_ops (set_script kvs ++ (OpDel <$> kvs.*1) ++
               [OpSet k' v'; OpGet k'])
              (__init__ None).2).1 =
       replicate (length kvs) (Ok None) ++
       replicate (length kvs) (Ok None) ++
       [Ok None; Ok (Some v')]).
Proof.
  split.
  - intros ht HInv%reachable_Inv.
    pose proof (Inv_nonempty ht HInv) as Ht.
    split; [apply HInv|]. intros k. exists (Z.of_nat (slot k (_table ht))).
    split; [by apply _get_index_run|].
    pose proof (slot_lt k _ Ht). unfold capacity. lia.
  - intros kvs k' v' Hnd. rewrite !run_ops_app. simpl.
    rewrite run_set_script by apply Inv_fresh. simpl.
    set (ht1 := set_items kvs _).
    assert (HInv1 : Inv ht1) by apply set_items_Inv, Inv_fresh.
    rewrite run_del_all; [|done|done|].
    2:{ intros k Hk. unfold ht1.
        rewrite set_items_get_opt by apply Inv_fresh.
        destruct (last_value k kvs) eqn:Hl; [by eexists|].
        by apply last_value_None in Hl. }
    rewrite length_fmap. do 2 f_equal.
    pose proof (run_ops_Inv (OpDel <$> kvs.*1) ht1 HInv1) as HInv2.
    set (ht2 := (run_ops (OpDel <$> kvs.*1) ht1).2) in *.
    unfold mbind, M_bind, bind.
    rewrite __setitem___run by done. simpl.
    rewrite __getitem___run by by apply set_state_Inv.
    rewrite set_state_get_opt by done. by rewrite decide_True.
Qed.

(** C7 (amended). The shrink step has no floor at the initial capacity
    constant.  What holds in every reachable state is that the capacity
    is at least 1, and at least twice the count. *)
Theorem capacity_lower_bound ht :
  reachable ht → 1 ≤ capacity ht ∧ 2 * __len__ ht ≤ capacity ht.
Proof. intros (_ & Hcap & Hload)%reachable_Inv. done. Qed.

(** ** Update in place *)

Lemma fmap_with_value_absent k v l :
  k ∉ key <$> l → with_value k v <$> l = l.
Proof.
  induction l as [|it rest IH]; [done|].
  rewrite !fmap_cons, not_elem_of_cons. intros [Hne Hnot].
  unfold with_value at 1. rewrite decide_False by done.
  by rewrite IH.
Qed.

Lemma chain_set_fmap k v l :
  k ∈ key <$> l → NoDup (key <$> l) →
  chain_set k v l = with_value k v <$> l.
Proof.
  induction l as [|it rest IH].
  { intros Hin. by apply elem_of_nil in Hin. }
  rewrite !fmap_cons, NoDup_cons. intros Hin [Hnot Hnd]. simpl.
  unfold with_value at 1.
  destruct (decide (key it = k)) as [Heq|Hne].
  - rewrite fmap_with_value_absent; [done|]. by rewrite <- Heq.
  - apply elem_of_cons in Hin as [?|Hin]; [congruence|].
    by rewrite IH.
Qed.

Lemma table_set_fmap k v ht :
  wf ht → _table ht ≠ [] → k ∈ key <$> chain_of k (_table ht) →
  table_set k v (_table ht) = fmap (M:=list) (with_value k v) <$> _table ht.
Proof.
  intros (Hpl & Hnd & _) Ht Hin. unfold table_set.
  pose proof (slot_lt k _ Ht) as Hlt.
  pose proof (chain_of_lookup k _ Ht) as Hc.
  apply list_eq. intros i. rewrite list_lookup_fmap.
  destruct (decide (i = slot k (_table ht))) as [->|Hne].
  - rewrite list_lookup_insert_eq by done. rewrite Hc. simpl. f_equal.
    apply chain_set_fmap; [done|]. unfold all_items in Hnd.
    destruct (placed_split k _ Hpl Ht) as (l1 & l2 & Hcat & _).
    rewrite Hcat, !fmap_app in Hnd.
    apply NoDup_app in Hnd as (_ & _ & Hnd).
    by apply NoDup_app in Hnd as (? & _ & _).
  - rewrite list_lookup_insert_ne by done.
    destruct (_table ht !! i) as [c|] eqn:Hi; [|done]. simpl. f_equal.
    symmetry. apply fmap_with_value_absent.
    intros Hk. apply list_elem_of_fmap in Hk as (item & -> & Hitem).
    apply Hne. symmetry. by eapply Hpl.
Qed.

Lemma with_value_key k v item : key (with_value k v item) = key item.
Proof. unfold with_value. by case_decide. Qed.

(** C8. When [set] is called with a key that is already stored, only the
    value of that key's entry changes: every other entry, every chain's
    keys and order, the capacity and the count stay as they are, and the
    resize method is not run (the outcome is the same whatever that method
    would do).  So calling [set(k, v)] twice leaves [len()] as the first
    call left it, and [get(k)] returns [v]. *)
Theorem update_in_place k v :
  (∀ ht, reachable ht → k ∈ keys ht →
     ∃ ht', (∀ r, _update_with r k v true ht = (Ok tt, ht')) ∧
            _table ht' = fmap (M:=list) (with_value k v) <$> _table ht ∧
            fmap (M:=list) key <$> _table ht' = fmap (M:=list) key <$> _table ht ∧
            capacity ht' = capacity ht ∧
            __len__ ht' = __len__ ht) ∧
  (∀ ht, reachable ht →
     ∃ ht1 ht2, __setitem__ k v ht = (Ok tt, ht1) ∧
                __setitem__ k v ht1 = (Ok tt, ht2) ∧
                __len__ ht2 = __len__ ht1 ∧
                __getitem__ k ht2 = (Ok v, ht2)).
Proof.
  split.
  - intros ht HInv%reachable_Inv Hin.
    pose proof (Inv_nonempty ht HInv) as Ht. pose proof HInv as (Hwf & _).
    rewrite keys_spec in Hin. apply in_chain_iff in Hin; [|apply Hwf|done].
    exists (put_item k v ht).
    assert (Htab : _table (put_item k v ht)
                   = fmap (M:=list) (with_value k v) <$> _table ht).
    { simpl. by apply table_set_fmap. }
    split_and!.
    + intros r. rewrite _update_resize by done. by rewrite decide_True.
    + done.
    + rewrite Htab, <- list_fmap_compose. apply list_fmap_ext.
      intros i c _. simpl. rewrite <- list_fmap_compose.
      apply list_fmap_ext. intros j item _. simpl. apply with_value_key.
    + unfold capacity. by rewrite put_item_length.
    + unfold __len__, put_item. simpl. by rewrite decide_True.
  - intros ht HInv%reachable_Inv.
    pose proof (set_state_Inv k v ht HInv) as HInv1.
    pose proof (Inv_nonempty _ HInv1) as Ht1. pose proof HInv1 as (Hwf1 & _).
    set (ht1 := set_state k v ht) in *.
    assert (Hg : get_opt ht1 k = Some v).
    { unfold ht1. rewrite set_state_get_opt by done. by rewrite decide_True. }
    assert (Hin : k ∈ key <$> chain_of k (_table ht1)).
    { apply in_chain_get_opt; [apply Hwf1|done|by eexists]. }
    exists ht1, (set_state k v ht1).
    rewrite !__setitem___run by done. split_and!; [done|done|..].
    + unfold set_state at 1. rewrite decide_True by done.
      unfold __len__, put_item. simpl. by rewrite decide_True.
    + rewrite __getitem___run by by apply set_state_Inv.
      rewrite set_state_get_opt by done. by rewrite decide_True.
Qed.

(** ** Iteration *)

Lemma concat_fmap {A B} (f : A → B) (ls : list (list A)) :
  f <$> concat ls = concat (fmap (M:=list) f <$> ls).
Proof.
  induction ls as [|xs ls IH]; [done|].
  simpl. by rewrite fmap_app, IH.
Qed.

Lemma items_bucket_order ht :
  items ht = concat (fmap (M:=list) entry <$> _table ht).
Proof. rewrite items_spec. apply concat_fmap. Qed.

Lemma items_reachable ht :
  reachable ht →
  NoDup (items ht).*1 ∧
  Z.of_nat (length (items ht)) = __len__ ht ∧
  ∀ k v, (k, v) ∈ items ht ↔ __getitem__ k ht = (Ok v, ht).
Proof.
  intros HInv%reachable_Inv. pose proof HInv as (Hwf & _).
  split_and!.
  - rewrite <- keys_items. by apply NoDup_keys.
  - by rewrite len_items.
  - intros k v. rewrite elem_of_items, __getitem___run by done.
    destruct (get_opt ht k); split; congruence.
Qed.

Lemma items_of_initial (initial : list (K * V)) :
  NoDup initial.*1 → items (__init__ (Some initial)).2 ≡ₚ initial.
Proof.
  intros Hnd. rewrite __init___run. simpl.
  apply items_perm.
  - apply set_items_Inv, Inv_fresh.
  - by eapply NoDup_fmap_1.
  - intros k v. rewrite set_items_get_opt by apply Inv_fresh.
    rewrite get_opt_fresh, <- last_value_elem by done.
    by destruct (last_value k initial).
Qed.

End properties.

(** C9. The sequence [items()] yields is the stored pairs in bucket-index
    order and, within a bucket, chain order.  On a reachable container it
    has one pair per stored entry and no key twice, [len()] pairs in all,
    and holds [(k, v)] exactly when [get(k)] returns [v].  A container built
    from a dict yields exactly the pairs of the dict, in some order; in
    particular one built from ["a":1, "b":2, "c":3], under any hash of
    strings. *)
Theorem items_complete {K V : Type} `{EqDecision K} `{Hashable K} :
  (∀ ht : HashTable (K:=K) (V:=V),
     items ht = concat (fmap (M:=list) entry <$> _table ht)) ∧
  (∀ ht : HashTable (K:=K) (V:=V), reachable ht →
     NoDup (items ht).*1 ∧
     Z.of_nat (length (items ht)) = __len__ ht ∧
     ∀ k v, (k, v) ∈ items ht ↔ __getitem__ k ht = (Ok v, ht)) ∧
  (∀ initial : list (K * V), NoDup initial.*1 →
     items (__init__ (Some initial)).2 ≡ₚ initial) ∧
  (∀ string_hash : Hashable string,
     items (__init__ (Some [("a", 1); ("b", 2); ("c", 3)])).2
       ≡ₚ [("a", 1); ("b", 2); ("c", 3)]).
Proof.
  split_and!.
  - apply items_bucket_order.
  - apply items_reachable.
  - apply items_of_initial.
  - intros string_hash. apply items_of_initial.
    apply (bool_decide_unpack _). by vm_compute.
Qed.

(** * Instances on integer keys

    Containers of [int] keys and values, hashed as CPython hashes an
    [int]. *)

(** The container of the integers [0 .. 99], each mapped to itself: 100
    entries in 256 buckets, and [47] is found. *)
Example insert_100 :
  let ht := (__init__ (Some ((λ n, (Z.of_nat n, Z.of_nat n)) <$> seq 0 100))).2
  in __getitem__ 47 ht = (Ok 47, ht) ∧ __len__ ht = 100 ∧ capacity ht = 256.
Proof. vm_compute. done. Qed.

(** The capacity after each step of a script that fills and drains a
    container; the delete of a missing key raises and changes nothing. *)
Example capacity_trajectory :
  let script := [OpSet 1 1; OpSet 2 2; OpSet 3 3; OpDel 1; OpDel 2; OpDel 3;
                 OpDel 3; OpSet 4 4; OpDel 4; OpSet 5 5; OpGet 5] in
  (λ n, capacity (run_ops (take n script) (__init__ (K:=Z) (V:=Z) None).2).2)
    <$> seq 0 12 = [4; 4; 4; 8; 8; 4; 2; 2; 2; 1; 2; 2] ∧
  (run_ops script (__init__ None).2).1 =
    [Ok None; Ok None; Ok None; Ok None; Ok None; Ok None; Raise KeyError;
     Ok None; Ok None; Ok None; Ok (Some 5)].
Proof. vm_compute. done. Qed.

(** A hash may be negative: [hash(-1)] is [-2], and [%] still yields a
    bucket position. *)
Example negative_hash :
  _get_index (-1) (__init__ (K:=Z) (V:=Z) None).2
    = (Ok 2, (__init__ None).2).
Proof. reflexivity. Qed.

Lemma set_then_get_witness :
  reachable (__init__ (K:=Z) (V:=Z) None).2 ∧
  ∃ ht', __setitem__ 5 50 (__init__ None).2 = (Ok tt, ht') ∧
         __getitem__ 5 ht' = (Ok 50, ht').
Proof.
  assert (Hr : reachable (__init__ (K:=Z) (V:=Z) None).2)
    by (exists None, []; reflexivity).
  split; [exact Hr|]. exact (set_then_get 5 50 _ Hr).
Defined.

Lemma resize_transparency_witness :
  NoDup [(1, 10); (2, 20); (3, 30)].*1 ∧
  wf (__init__ (K:=Z) (V:=Z) None).2 ∧
  (run_ops (set_script [(1, 10); (2, 20); (3, 30)])
           (__init__ None).2).1 = replicate 3 (Ok None) ∧
  ∃ ht', _resize (__init__ (K:=Z) (V:=Z) None).2 = (Ok tt, ht') ∧
         __len__ ht' = 0.
Proof.
  assert (Hnd : NoDup [(1, 10); (2, 20); (3, 30)].*1)
    by (apply (bool_decide_unpack _); vm_compute; exact I).
  assert (Hwf : wf (__init__ (K:=Z) (V:=Z) None).2).
  { split_and!.
    - intros i chain item Hi Hitem.
      apply lookup_replicate_1 in Hi as [-> _]. by apply elem_of_nil in Hitem.
    - constructor.
    - reflexivity. }
  destruct (resize_transparency (K:=Z) (V:=Z)) as [Hins Hres].
  split_and!; [exact Hnd|exact Hwf|..].
  - exact (proj1 (Hins _ Hnd)).
  - destruct (Hres _ Hwf) as (ht' & Hrun & _ & Hlen & _).
    exists ht'. split; [exact Hrun|exact Hlen].
Defined.

Lemma key_not_found_iff_witness :
  reachable (__init__ (K:=Z) (V:=Z) None).2 ∧
  ((__getitem__ 7 (__init__ (K:=Z) (V:=Z) None).2).1 = Raise KeyError
   ↔ 7 ∉ keys (__init__ (K:=Z) (V:=Z) None).2).
Proof.
  assert (Hr : reachable (__init__ (K:=Z) (V:=Z) None).2)
    by (exists None, []; reflexivity).
  split; [exact Hr|]. exact (proj1 (key_not_found_iff 7 _ Hr)).
Defined.

Lemma key_error_leaves_unchanged_witness :
  (__getitem__ 7 (__init__ (K:=Z) (V:=Z) None).2).1 = Raise KeyError ∧
  (__delitem__ 7 (__init__ (K:=Z) (V:=Z) None).2).1 = Raise KeyError ∧
  (__getitem__ 7 (__init__ (K:=Z) (V:=Z) None).2).2 = (__init__ None).2 ∧
  (__delitem__ 7 (__init__ (K:=Z) (V:=Z) None).2).2 = (__init__ None).2.
Proof.
  destruct (key_error_leaves_unchanged 7 (__init__ (K:=Z) (V:=Z) None).2)
    as [Hget Hdel].
  split_and!; [reflexivity|reflexivity|..].
  - apply Hget. reflexivity.
  - apply Hdel. reflexivity.
Defined.

Lemma set_sequence_uniqueness_witness :
  reachable (__init__ (K:=Z) (V:=Z) None).2 ∧
  NoDup (keys (__init__ (K:=Z) (V:=Z) None).2) ∧
  __len__ (run_ops (set_script [(1, 10); (1, 11); (2, 20)])
                   (__init__ (K:=Z) (V:=Z) None).2).2 = 2.
Proof.
  assert (Hr : reachable (__init__ (K:=Z) (V:=Z) None).2)
    by (exists None, []; reflexivity).
  destruct (set_sequence_uniqueness (K:=Z) (V:=Z)) as [Hseq Hall].
  split_and!; [exact Hr|exact (proj1 (Hall _ Hr))|].
  destruct (Hseq [(1, 10); (1, 11); (2, 20)]) as (_ & _ & _ & Hlen).
  exact (Hlen 3%nat).
Defined.

Lemma capacity_at_least_one_witness :
  reachable (__init__ (K:=Z) (V:=Z) None).2 ∧
  1 ≤ capacity (__init__ (K:=Z) (V:=Z) None).2 ∧
  NoDup [(1, 10); (2, 20)].*1 ∧
  (run_ops (set_script [(1, 10); (2, 20)] ++ (OpDel <$> [(1, 10); (2, 20)].*1)
            ++ [OpSet 9 90; OpGet 9])
           (__init__ None).2).1 =
    replicate 2 (Ok None) ++ replicate 2 (Ok None)
    ++ [Ok None; Ok (Some 90)].
Proof.
  assert (Hr : reachable (__init__ (K:=Z) (V:=Z) None).2)
    by (exists None, []; reflexivity).
  assert (Hnd : NoDup [(1, 10); (2, 20)].*1)
    by (apply (bool_decide_unpack _); vm_compute; exact I).
  destruct (capacity_at_least_one (K:=Z) (V:=Z)) as [Hcap Hrun].
  split_and!; [exact Hr|exact (proj1 (Hcap _ Hr))|exact Hnd|].
  exact (Hrun [(1, 10); (2, 20)] 9 90 Hnd).
Defined.

(** C7 as stated fails: a fresh container in which one key is set and then
    deleted is left with two buckets, below the initial four. *)
Lemma capacity_below_initial :
  reachable (run_ops [OpSet 0 0; OpDel 0] (__init__ (K:=Z) (V:=Z) None).2).2 ∧
  ¬ (4 ≤ capacity
           (run_ops [OpSet 0 0; OpDel 0] (__init__ (K:=Z) (V:=Z) None).2).2).
Proof.
  split.
  - exists None, [OpSet 0 0; OpDel 0]. reflexivity.
  - vm_compute. intros Hle. by apply Hle.
Qed.

Lemma capacity_lower_bound_witness :
  reachable (run_ops [OpSet 0 0; OpDel 0] (__init__ (K:=Z) (V:=Z) None).2).2 ∧
  1 ≤ capacity
        (run_ops [OpSet 0 0; OpDel 0] (__init__ (K:=Z) (V:=Z) None).2).2.
Proof.
  assert (Hr : reachable
    (run_ops [OpSet 0 0; OpDel 0] (__init__ (K:=Z) (V:=Z) None).2).2)
    by (exists None, [OpSet 0 0; OpDel 0]; reflexivity).
  split; [exact Hr|]. exact (proj1 (capacity_lower_bound _ Hr)).
Defined.

Lemma update_in_place_witness :
  reachable (run_ops [OpSet 5 50] (__init__ (K:=Z) (V:=Z) None).2).2 ∧
  5 ∈ keys (run_ops [OpSet 5 50] (__init__ (K:=Z) (V:=Z) None).2).2 ∧
  ∃ ht',
    _update_with (raise IndexError) 5 51 true
      (run_ops [OpSet 5 50] (__init__ (K:=Z) (V:=Z) None).2).2 = (Ok tt, ht') ∧
    __len__ ht' = 1.
Proof.
  assert (Hr : reachable
    (run_ops [OpSet 5 50] (__init__ (K:=Z) (V:=Z) None).2).2)
    by (exists None, [OpSet 5 50]; reflexivity).
  assert (Hin : 5 ∈ keys
    (run_ops [OpSet 5 50] (__init__ (K:=Z) (V:=Z) None).2).2)
    by (apply (bool_decide_unpack _); vm_compute; exact I).
  split_and!; [exact Hr|exact Hin|].
  destruct (proj1 (update_in_place 5 51) _ Hr Hin)
    as (ht' & Hrun & _ & _ & _ & Hlen).
  exists ht'. split; [exact (Hrun _)|exact Hlen].
Defined.

Lemma items_complete_witness :
  reachable (__init__ (K:=Z) (V:=Z) None).2 ∧
  NoDup [(1, 10); (2, 20); (3, 30)].*1 ∧
  NoDup (items (__init__ (K:=Z) (V:=Z) None).2).*1 ∧
  items (__init__ (K:=Z) (V:=Z) (Some [(1, 10); (2, 20); (3, 30)])).2
    ≡ₚ [(1, 10); (2, 20); (3, 30)].
Proof.
  assert (Hr : reachable (__init__ (K:=Z) (V:=Z) None).2)
    by (exists None, []; reflexivity).
  assert (Hnd : NoDup [(1, 10); (2, 20); (3, 30)].*1)
    by (apply (bool_decide_unpack _); vm_compute; exact I).
  destruct (items_complete (K:=Z) (V:=Z)) as (_ & Hreach & Hinit & _).
  split_and!; [exact Hr|exact Hnd|exact (proj1 (Hreach _ Hr))|].
  exact (Hinit _ Hnd).
Defined.

(** * Further properties of the container *)

Section coverage.
Context {K V : Type} `{EqDecision K} `{Hashable K}.

Local Abbreviation HT := (HashTable (K:=K) (V:=V)).
Local Abbreviation Item := (_Item (K:=K) (V:=V)).

Implicit Types (ht : HT) (t : list (list Item)) (l chain : list Item).
Implicit Types (k : K) (v : V).

(** ** The three generators agree *)

(** X1. On every object [keys()] and [values()] enumerate the entries in
    the order of [items()]: the keys are the first components of the items,
    the values the second ones, so that pairing them position by position
    gives [items()] back. *)
Theorem keys_values_items ht :
  keys ht = (items ht).*1 ∧
  values ht = (items ht).*2 ∧
  zip (keys ht) (values ht) = items ht.
Proof.
  assert (Hk : keys ht = (items ht).*1) by apply keys_items.
  assert (Hv : values ht = (items ht).*2).
  { unfold values. rewrite generate_spec, items_spec, <- list_fmap_compose.
    done. }
  split_and!; [done|done|]. rewrite Hk, Hv. apply zip_fst_snd.
Qed.

(** ** What one operation does to count and capacity *)

Lemma set_state_shape k v ht :
  Inv ht →
  if decide (k ∈ keys ht)
  then _count_items (set_state k v ht) = _count_items ht ∧
       capacity (set_state k v ht) = capacity ht
  else _count_items (set_state k v ht) = _count_items ht + 1 ∧
       capacity (set_state k v ht) =
         default (capacity ht)
                 (resize_policy (capacity ht) (_count_items ht + 1)).
Proof.
  intros HInv. pose proof (Inv_nonempty ht HInv) as Ht.
  destruct HInv as (Hwf & Hcap & Hload).
  pose proof (in_chain_iff k ht (proj1 Hwf) Ht) as Hiff.
  rewrite <- keys_spec in Hiff.
  assert (Hcap1 : capacity (put_item k v ht) = capacity ht).
  { unfold capacity. by rewrite put_item_length. }
  unfold set_state.
  destruct (decide (k ∈ keys ht)) as [Hin|Hin].
  - rewrite decide_True by by apply Hiff.
    split; [|done]. unfold put_item. simpl.
    by rewrite decide_True by by apply Hiff.
  - rewrite decide_False by by rewrite Hiff.
    destruct (resized_spec _ (put_item_wf k v ht Hwf Ht))
      as (_ & _ & Hcnt & Hcap2).
    assert (Hn : _count_items (put_item k v ht) = _count_items ht + 1).
    { unfold put_item. simpl. by rewrite decide_False by by rewrite Hiff. }
    rewrite Hcnt, Hcap2, Hcap1, Hn. done.
Qed.

Lemma del_state_shape k ht :
  Inv ht → is_Some (get_opt ht k) →
  1 ≤ _count_items ht ∧
  _count_items (del_state k ht) = _count_items ht - 1 ∧
  capacity (del_state k ht) =
    default (capacity ht)
            (resize_policy (capacity ht) (_count_items ht - 1)).
Proof.
  intros HInv Hsome. pose proof (Inv_nonempty ht HInv) as Ht.
  destruct HInv as (Hwf & Hcap & Hload).
  apply (in_chain_get_opt k ht (proj1 Hwf) Ht) in Hsome.
  destruct (del_item_items k ht (proj1 Hwf) Ht Hsome)
    as (item & _ & _ & Hperm).
  assert (1 ≤ _count_items ht).
  { destruct Hwf as (_ & _ & ->). rewrite Hperm. simpl. lia. }
  destruct (resized_spec _ (del_item_wf k ht Hwf Ht Hsome))
    as (_ & _ & Hcnt & Hcap2).
  assert (Hcap1 : capacity (del_item k ht) = capacity ht).
  { unfold capacity, del_item, table_del. simpl. by rewrite length_insert. }
  unfold del_state. rewrite Hcnt, Hcap2, Hcap1. simpl.
  replace (_count_items ht + -1) with (_count_items ht - 1) by lia.
  done.
Qed.

Lemma pow2_double (j : nat) : 2 ^ Z.of_nat j * 2 = 2 ^ Z.of_nat (S j).
Proof. rewrite Nat2Z.inj_succ, Z.pow_succ_r by lia. lia. Qed.

Lemma pow2_half (j : nat) : 2 ^ Z.of_nat (S j) `div` 2 = 2 ^ Z.of_nat j.
Proof.
  rewrite Nat2Z.inj_succ, Z.pow_succ_r by lia.
  rewrite Z.mul_comm, Z.div_mul by lia. done.
Qed.

Lemma Inv_load_fresh : Inv_load ((__init__ (K:=K) (V:=V) None).2).
Proof.
  split_and!; [apply Inv_fresh|done|]. by exists 2%nat.
Qed.

Lemma set_state_Inv_load k v ht : Inv_load ht → Inv_load (set_state k v ht).
Proof.
  intros (HInv & Hup & j & Hj).
  pose proof (set_state_shape k v ht HInv) as Hshape.
  pose proof HInv as ((_ & _ & Hcnt) & Hcap & Hload).
  split; [by apply set_state_Inv|].
  destruct (decide (k ∈ keys ht)).
  - destruct Hshape as [-> ->]. split; [done|by exists j].
  - destruct Hshape as [-> ->]. unfold resize_policy.
    destruct (decide ((_count_items ht + 1) * 2 > capacity ht)); simpl.
    + split; [lia|]. exists (S j). by rewrite <- pow2_double, Hj.
    + rewrite decide_False by lia. simpl. split; [lia|by exists j].
Qed.

Lemma del_state_Inv_load k ht :
  Inv_load ht → is_Some (get_opt ht k) → Inv_load (del_state k ht).
Proof.
  intros (HInv & Hup & j & Hj) Hsome.
  destruct (del_state_shape k ht HInv Hsome) as (Hpos & Hn & Hc).
  pose proof HInv as (_ & Hcap & Hload).
  split; [by apply del_state_Inv|]. rewrite Hn, Hc.
  unfold resize_policy. rewrite decide_False by lia.
  destruct (decide ((_count_items ht - 1) * 4 < capacity ht)); simpl.
  - destruct j as [|j]; [simpl in Hj; lia|].
    rewrite Hj, pow2_half. rewrite Hj in Hup, Hload.
    rewrite <- pow2_double in Hup, Hload.
    split; [lia|by exists j].
  - split; [lia|by exists j].
Qed.

Lemma run_op_Inv_load o ht : Inv_load ht → Inv_load (run_op o ht).2.
Proof.
  intros HL. pose proof HL as (HInv & _).
  destruct o as [k v|k|k]; simpl; unfold mbind, M_bind, bind.
  - rewrite __setitem___run by done. simpl. by apply set_state_Inv_load.
  - rewrite __getitem___run by done. by destruct (get_opt ht k).
  - rewrite __delitem___run by done.
    destruct (get_opt ht k) eqn:Hg; [|done]. simpl.
    apply del_state_Inv_load; [done|]. by eexists.
Qed.

Lemma run_ops_Inv_load ops ht : Inv_load ht → Inv_load (run_ops ops ht).2.
Proof.
  revert ht. induction ops as [|o ops IH]; intros ht HL; [done|].
  simpl. pose proof (run_op_Inv_load o ht HL) as H1.
  destruct (run_op o ht) as [r ht1]. specialize (IH ht1 H1).
  by destruct (run_ops ops ht1).
Qed.

Lemma set_items_Inv_load kvs ht : Inv_load ht → Inv_load (set_items kvs ht).
Proof.
  revert ht. induction kvs as [|[k v] kvs IH]; intros ht HL; [done|].
  apply IH. by apply set_state_Inv_load.
Qed.

Lemma reachable_Inv_load ht : reachable ht → Inv_load ht.
Proof.
  intros (initial & ops & ->). apply run_ops_Inv_load.
  rewrite __init___run. simpl. apply set_items_Inv_load, Inv_load_fresh.
Qed.

(** ** Load bounds *)

(** X2. In every reachable state the capacity is at most four times the
    number of entries plus four: the shrink step keeps the table from
    staying much larger than its contents. *)
Theorem capacity_upper_bound ht :
  reachable ht → capacity ht ≤ 4 * __len__ ht + 4.
Proof. intros (_ & Hup & _)%reachable_Inv_load. done. Qed.

(** X3. In every reachable state the capacity is a power of two. *)
Theorem capacity_power_of_two ht :
  reachable ht → ∃ j : nat, capacity ht = 2 ^ Z.of_nat j.
Proof. intros (_ & _ & Hpow)%reachable_Inv_load. done. Qed.

(** X4. On a reachable container [set] never shrinks the table: it
    doubles the capacity when the key is new and twice the new count
    exceeds the capacity, and leaves the capacity alone otherwise. *)
Theorem set_capacity k v ht :
  reachable ht →
  ∃ ht', __setitem__ k v ht = (Ok tt, ht') ∧
         capacity ht' =
           if decide (k ∈ keys ht) then capacity ht
           else if decide (2 * (__len__ ht + 1) > capacity ht)
                then 2 * capacity ht
                else capacity ht.
Proof.
  intros (HInv & Hup & _)%reachable_Inv_load.
  exists (set_state k v ht). split; [by apply __setitem___run|].
  pose proof (set_state_shape k v ht HInv) as Hshape.
  destruct (decide (k ∈ keys ht)); [apply Hshape|].
  destruct Hshape as [_ ->]. unfold resize_policy, __len__.
  repeat case_decide; simpl; lia.
Qed.

(** X5. On a reachable container a successful [delete] never grows the
    table: it halves the capacity when four times the new count is below
    the capacity, and leaves the capacity alone otherwise. *)
Theorem delete_capacity k ht :
  reachable ht → k ∈ keys ht →
  ∃ ht', __delitem__ k ht = (Ok tt, ht') ∧
         capacity ht' =
           if decide (4 * (__len__ ht - 1) < capacity ht)
           then capacity ht `div` 2
           else capacity ht.
Proof.
  intros HInv%reachable_Inv Hin. pose proof HInv as (Hwf & _ & Hload).
  apply elem_of_keys in Hin; [|done].
  exists (del_state k ht). split.
  - rewrite __delitem___run by done. by destruct Hin as [v ->].
  - destruct (del_state_shape k ht HInv Hin) as (Hpos & _ & ->).
    unfold resize_policy, __len__.
    repeat case_decide; simpl; lia.
Qed.

(** ** Containers that were only inserted into *)

Lemma set_items_snoc (kvs : list (K * V)) k v ht :
  set_items (kvs ++ [(k, v)]) ht = set_state k v (set_items kvs ht).
Proof. unfold set_items. by rewrite foldl_app. Qed.

Lemma set_only_capacity (kvs : list (K * V)) :
  let ht := set_items kvs (__init__ None).2 in
  capacity ht = grown_capacity (Z.to_nat (_count_items ht)) ∧
  (capacity ht = 4 ∨ capacity ht < 4 * _count_items ht).
Proof.
  induction kvs as [|[k v] kvs IH] using rev_ind; [by split; [|left]|].
  rewrite set_items_snoc. simpl in *.
  set (ht := set_items kvs _) in *.
  assert (HL : Inv_load ht) by apply set_items_Inv_load, Inv_load_fresh.
  destruct HL as (HInv & Hup & _).
  pose proof HInv as ((_ & _ & Hcnt) & Hcap & Hload).
  pose proof (set_state_shape k v ht HInv) as Hshape.
  destruct IH as [Hgrown Hlow].
  destruct (decide (k ∈ keys ht)).
  - destruct Hshape as [-> ->]. done.
  - destruct Hshape as [-> ->].
    assert (0 ≤ _count_items ht) by lia.
    replace (Z.to_nat (_count_items ht + 1))
      with (S (Z.to_nat (_count_items ht))) by lia.
    simpl grown_capacity. rewrite <- Hgrown.
    unfold resize_policy, _RESIZE_MUL.
    replace (Z.of_nat (S (Z.to_nat (_count_items ht))))
      with (_count_items ht + 1) by lia.
    repeat case_decide; simpl; split; lia.
Qed.

(** X6. A container that was built by [set] calls alone (a fresh one, or
    one constructed from a dict) is never sparse: its capacity is 4, or
    less than four times its number of entries. *)
Theorem set_only_load (initial : option (list (K * V))) (kvs : list (K * V)) :
  let ht := (run_ops (set_script kvs) (__init__ initial).2).2 in
  capacity ht = 4 ∨ capacity ht < 4 * __len__ ht.
Proof.
  intros ht. subst ht. rewrite __init___run. simpl.
  rewrite run_set_script by apply set_items_Inv, Inv_fresh. simpl.
  unfold set_items. rewrite <- foldl_app.
  apply (set_only_capacity (default [] initial ++ kvs)).
Qed.

(** X7. The container built from a dict does not depend on the order in
    which the dict yields its pairs, except for the order of iteration:
    two orders of the same pairs give the same pairs, the same [len()] and
    the same capacity. *)
Theorem construction_order_independent (initial initial' : list (K * V)) :
  NoDup initial.*1 → initial ≡ₚ initial' →
  items (__init__ (Some initial)).2 ≡ₚ items (__init__ (Some initial')).2 ∧
  __len__ (__init__ (Some initial)).2 = __len__ (__init__ (Some initial')).2 ∧
  capacity (__init__ (Some initial)).2 = capacity (__init__ (Some initial')).2.
Proof.
  intros Hnd Hperm.
  assert (Hnd' : NoDup initial'.*1) by by rewrite <- Hperm.
  pose proof (items_of_initial initial Hnd) as Hit.
  pose proof (items_of_initial initial' Hnd') as Hit'.
  rewrite (__init___run (Some initial)) in *.
  rewrite (__init___run (Some initial')) in *.
  cbn [snd default from_option id] in *.
  set (ht := set_items initial _) in *.
  set (ht' := set_items initial' _) in *.
  assert (Hwf : wf ht) by apply set_items_Inv, Inv_fresh.
  assert (Hwf' : wf ht') by apply set_items_Inv, Inv_fresh.
  assert (Hlen : __len__ ht = __len__ ht').
  { rewrite !len_items by done. by rewrite Hit, Hit', Hperm. }
  split_and!; [by rewrite Hit, Hit'|done|].
  destruct (set_only_capacity initial) as [Hc _].
  destruct (set_only_capacity initial') as [Hc' _].
  fold ht in Hc. fold ht' in Hc'. unfold __len__ in Hlen.
  by rewrite Hc, Hc', Hlen.
Qed.

(** ** The container as a dictionary *)

Lemma run_ops_dict ops ht (d : K → option V) :
  Inv ht → (∀ k, get_opt ht k = d k) →
  (run_ops ops ht).1 = dict_run ops d.
Proof.
  revert ht d. induction ops as [|o ops IH]; intros ht d HInv Hd; [done|].
  cbn [run_ops dict_run].
  assert (Hstep : (run_op o ht).1 = (dict_step o d).1 ∧
                  Inv (run_op o ht).2 ∧
                  ∀ k, get_opt (run_op o ht).2 k = (dict_step o d).2 k).
  { split_and!; [|by apply run_op_Inv|].
    - destruct o as [k v|k|k]; simpl; unfold mbind, M_bind, bind.
      + by rewrite __setitem___run.
      + rewrite __getitem___run, Hd by done. by destruct (d k).
      + rewrite __delitem___run, Hd by done. by destruct (d k).
    - destruct o as [k v|k|k]; simpl; unfold mbind, M_bind, bind; intros k'.
      + rewrite __setitem___run by done. simpl.
        rewrite set_state_get_opt by done. by rewrite Hd.
      + rewrite __getitem___run by done. by destruct (get_opt ht k).
      + rewrite __delitem___run by done. rewrite <- Hd.
        destruct (get_opt ht k) eqn:Hg; [|done]. simpl.
        rewrite del_state_get_opt by (done || by eexists). by rewrite Hd. }
  destruct Hstep as (Hr & HInv' & Hd').
  destruct (run_op o ht) as [r ht1]. simpl in *.
  specialize (IH ht1 _ HInv' Hd').
  destruct (run_ops ops ht1) as [rs ht2]. simpl in *. by rewrite Hr, IH.
Qed.

Lemma get_opt_initial (initial : option (list (K * V))) k :
  get_opt (__init__ initial).2 k = dict_of (default [] initial) k.
Proof.
  rewrite __init___run. cbn [snd]. unfold dict_of.
  rewrite set_items_get_opt by apply Inv_fresh.
  rewrite get_opt_fresh. by destruct (last_value k _).
Qed.

(** X8. The container behaves as a dictionary: the constructor returns
    normally, and whatever script of [set], [get] and [delete] calls is run
    on a container built from a dict (or from nothing), every call has the
    outcome the same call has on that dict: the same value read, the same
    KeyError. *)
Theorem dict_refinement (initial : option (list (K * V))) (ops : list op) :
  (__init__ initial).1 = Ok tt ∧
  (run_ops ops (__init__ initial).2).1
    = dict_run ops (dict_of (default [] initial)).
Proof.
  split; [by rewrite __init___run|].
  apply run_ops_dict; [|apply get_opt_initial].
  apply reachable_Inv. by exists initial, [].
Qed.

Lemma dict_run_outcomes ops (d : K → option V) :
  Forall (λ r, r ≠ Raise ZeroDivisionError ∧ r ≠ Raise IndexError)
         (dict_run ops d).
Proof.
  revert d. induction ops as [|o ops IH]; intros d; [constructor|].
  cbn [dict_run]. constructor; [|apply IH].
  destruct o as [k v|k|k]; simpl; [done|by destruct (d k)..].
Qed.

(** X9. No call on a container, at any point of any script, raises a
    ZeroDivisionError or an IndexError: the modulo of [_get_index] never
    meets a zero capacity and no subscript leaves its list. *)
Theorem no_internal_error (initial : option (list (K * V))) (ops : list op) :
  Forall (λ r, r ≠ Raise ZeroDivisionError ∧ r ≠ Raise IndexError)
         (run_ops ops (__init__ initial).2).1.
Proof.
  rewrite (run_ops_dict ops _ (dict_of (default [] initial))).
  - apply dict_run_outcomes.
  - apply reachable_Inv. by exists initial, [].
  - apply get_opt_initial.
Qed.

(** X10. An operation on one key does not disturb another: on a reachable
    container, after [set(k, v)] or [delete(k)] (successful or not) a
    [get] of any other key has the outcome it had before. *)
Theorem other_keys_untouched k k' v ht :
  reachable ht → k' ≠ k →
  (__getitem__ k' (__setitem__ k v ht).2).1 = (__getitem__ k' ht).1 ∧
  (__getitem__ k' (__delitem__ k ht).2).1 = (__getitem__ k' ht).1.
Proof.
  intros HInv%reachable_Inv Hne. split.
  - rewrite __setitem___run by done. cbn [snd].
    rewrite !__getitem___run by (done || by apply set_state_Inv).
    rewrite set_state_get_opt by done. by rewrite decide_False.
  - rewrite __delitem___run by done.
    destruct (get_opt ht k) eqn:Hg; [|done]. cbn [snd].
    rewrite !__getitem___run
      by (done || (apply del_state_Inv; [done|by eexists])).
    rewrite del_state_get_opt by (done || by eexists).
    by rewrite decide_False.
Qed.

(** ** Operations that change nothing, or undo each other *)

Lemma fmap_fmap_id (f : Item → Item) t :
  (∀ item, item ∈ concat t → f item = item) →
  fmap (M:=list) f <$> t = t.
Proof.
  induction t as [|chain t IH]; intros Hf; [done|].
  rewrite fmap_cons. f_equal.
  - clear IH. assert (Hc : ∀ item, item ∈ chain → f item = item).
    { intros item Hin. apply Hf. simpl. apply elem_of_app. by left. }
    induction chain as [|it chain IHc]; [done|].
    rewrite fmap_cons. f_equal.
    + apply Hc. left.
    + apply IHc.
      * intros item Hin. apply Hf. simpl in *.
        apply elem_of_cons. right. apply elem_of_app.
        apply elem_of_app in Hin as [?|?]; [by left|by right].
      * intros item Hin. apply Hc. by right.
  - apply IH. intros item Hin. apply Hf. simpl. apply elem_of_app. by right.
Qed.

(** X11. Setting a key to the value it already has changes nothing at
    all: on a reachable container that holds [(k, v)], [set(k, v)] returns
    and leaves the object exactly as it was. *)
Theorem set_same_value k v ht :
  reachable ht → (k, v) ∈ items ht → __setitem__ k v ht = (Ok tt, ht).
Proof.
  intros HInv%reachable_Inv Hin.
  pose proof (Inv_nonempty ht HInv) as Ht. pose proof HInv as (Hwf & _).
  apply elem_of_items in Hin; [|done].
  assert (Hchain : k ∈ key <$> chain_of k (_table ht)).
  { apply in_chain_get_opt; [apply Hwf|done|by eexists]. }
  rewrite __setitem___run by done. f_equal.
  unfold set_state. rewrite decide_True by done.
  unfold put_item. rewrite decide_True by done.
  rewrite table_set_fmap by done.
  rewrite fmap_fmap_id; [by destruct ht|].
  intros item Hitem. unfold with_value. case_decide as Hk; [|done].
  assert (Hg : get_opt ht (key item) = Some (value item)).
  { unfold get_opt. apply chain_get_elem; [apply Hwf|]. by rewrite item_eta. }
  rewrite Hk, Hin in Hg. injection Hg as ->. apply item_eta.
Qed.

(** X12. Inserting a new key and deleting it again gives back the same
    contents: on a reachable container that does not hold [k], [set(k, v)]
    followed by [delete(k)] succeeds and leaves the pairs and [len()] that
    were there before (the capacity may have changed). *)
Theorem set_delete_restores k v ht :
  reachable ht → k ∉ keys ht →
  ∃ ht1 ht2,
    __setitem__ k v ht = (Ok tt, ht1) ∧
    __delitem__ k ht1 = (Ok tt, ht2) ∧
    items ht2 ≡ₚ items ht ∧
    __len__ ht2 = __len__ ht.
Proof.
  intros HInv%reachable_Inv Hnot. pose proof HInv as (Hwf & _).
  apply keys_get_opt_None in Hnot; [|done].
  pose proof (set_state_Inv k v ht HInv) as HInv1.
  assert (Hg : get_opt (set_state k v ht) k = Some v).
  { rewrite set_state_get_opt by done. by rewrite decide_True. }
  assert (Hsome : is_Some (get_opt (set_state k v ht) k)) by by eexists.
  pose proof (del_state_Inv k _ HInv1 Hsome) as HInv2.
  exists (set_state k v ht), (del_state k (set_state k v ht)).
  rewrite __setitem___run, __delitem___run, Hg by done.
  assert (Hperm : items (del_state k (set_state k v ht)) ≡ₚ items ht).
  { apply items_perm; [apply HInv2|by apply NoDup_items|].
    intros k' v'. rewrite elem_of_items by done.
    rewrite del_state_get_opt, set_state_get_opt by done.
    destruct (decide (k' = k)) as [->|]; [|done]. by rewrite Hnot. }
  split_and!; [done|done|done|].
  rewrite !len_items by (done || apply HInv2). by rewrite Hperm.
Qed.

(** ** Iteration order when the table is not resized *)

Lemma resized_id ht :
  resize_policy (capacity ht) (_count_items ht) = None → resized ht = ht.
Proof. unfold resized, capacity. by intros ->. Qed.

(** X13. A [delete] that triggers no resize keeps the order of iteration:
    on a reachable container that holds [(k, v)] and whose capacity is at
    most four times the count after the deletion, [items()] afterwards is
    [items()] before with that one pair taken out. *)
Theorem delete_keeps_order k v ht :
  reachable ht → (k, v) ∈ items ht →
  capacity ht ≤ 4 * (__len__ ht - 1) →
  ∃ ht' before after,
    __delitem__ k ht = (Ok tt, ht') ∧
    items ht = before ++ (k, v) :: after ∧
    items ht' = before ++ after.
Proof.
  intros HInv%reachable_Inv Hin Hbig.
  pose proof (Inv_nonempty ht HInv) as Ht.
  pose proof HInv as (Hwf & Hcap & Hload).
  apply elem_of_items in Hin; [|done].
  assert (Hchain : k ∈ key <$> chain_of k (_table ht)).
  { apply in_chain_get_opt; [apply Hwf|done|by eexists]. }
  assert (Hid : del_state k ht = del_item k ht).
  { unfold del_state. apply resized_id.
    assert (Hc : capacity (del_item k ht) = capacity ht).
    { unfold capacity, del_item, table_del. simpl. by rewrite length_insert. }
    rewrite Hc. unfold del_item, resize_policy, __len__ in *. simpl.
    rewrite !decide_False by lia. done. }
  rewrite __delitem___run, Hin, Hid by done.
  rewrite get_opt_chain in Hin by (done || apply Hwf).
  destruct (placed_split k _ (proj1 Hwf) Ht)
    as (l1 & l2 & Hcat & Hdel & _ & _).
  destruct (chain_split k _ Hchain) as (c1 & item & c2 & Hc & Hk & Hc1).
  rewrite Hc, chain_get_found in Hin by done. injection Hin as Hv.
  exists (del_item k ht), (entry <$> l1 ++ c1), (entry <$> c2 ++ l2).
  split; [done|]. rewrite !items_spec. unfold all_items, del_item, table_del.
  simpl. rewrite Hcat, Hdel, Hc, chain_del_found by done.
  assert (He : entry item = (k, v)) by (unfold entry; by rewrite Hk, Hv).
  split; [|by rewrite !fmap_app, <- !app_assoc].
  rewrite !fmap_app, fmap_cons, He, <- !app_assoc. done.
Qed.

(** X14. A [set] of a new key that triggers no resize puts the new entry
    at the end of its chain and touches nothing else: on a reachable
    container that does not hold [k] and has room for one more entry, the
    table afterwards is the old one with [(k, v)] appended to the bucket
    [hash(k) % capacity]. *)
Theorem set_appends_to_chain k v ht :
  reachable ht → k ∉ keys ht →
  2 * (__len__ ht + 1) ≤ capacity ht →
  ∃ ht' i chain,
    __setitem__ k v ht = (Ok tt, ht') ∧
    Z.of_nat i = hash k `mod` capacity ht ∧
    _table ht !! i = Some chain ∧
    _table ht' = <[i := chain ++ [{| key := k; value := v |}]]> (_table ht) ∧
    __len__ ht' = __len__ ht + 1.
Proof.
  intros (HInv & Hup & _)%reachable_Inv_load Hnot Hroom.
  pose proof (Inv_nonempty ht HInv) as Ht.
  pose proof HInv as (Hwf & Hcap & Hload).
  assert (Hchain : k ∉ key <$> chain_of k (_table ht)).
  { rewrite in_chain_iff by (done || apply Hwf). by rewrite <- keys_spec. }
  assert (Hid : set_state k v ht = put_item k v ht).
  { unfold set_state. rewrite decide_False by done. apply resized_id.
    assert (Hc : capacity (put_item k v ht) = capacity ht).
    { unfold capacity. by rewrite put_item_length. }
    rewrite Hc. unfold put_item, resize_policy, __len__ in *. simpl.
    rewrite (decide_False (P := k ∈ _)) by done.
    rewrite !decide_False by lia. done. }
  exists (put_item k v ht), (slot k (_table ht)), (chain_of k (_table ht)).
  rewrite __setitem___run, Hid by done.
  split_and!; [done|by apply slot_of_nat|by apply chain_of_lookup|..].
  - unfold put_item, table_set. simpl. by rewrite chain_set_fresh.
  - unfold __len__, put_item. simpl. by rewrite decide_False.
Qed.

(** ** Chain search and the table without buckets *)

(** X15. [_find] on any object leaves it as it is and raises nothing but
    KeyError and ZeroDivisionError.  When it returns [(index, sub_index)],
    [index] is [hash(key) % capacity], the item at that position has the
    key and no earlier item of the chain has it.  It raises KeyError when
    the table has buckets and the chain of the key does not hold it, and
    ZeroDivisionError when the table has no bucket. *)
Theorem _find_spec k ht :
  (_find k ht).2 = ht ∧
  match (_find k ht).1 with
  | Ok (index, sub_index) =>
      index = hash k `mod` capacity ht ∧ 0 ≤ sub_index ∧
      ∃ chain item,
        _table ht !! Z.to_nat index = Some chain ∧
        chain !! Z.to_nat sub_index = Some item ∧
        key item = k ∧
        (k ∉ key <$> take (Z.to_nat sub_index) chain)
  | Raise KeyError =>
      _table ht ≠ [] ∧
      ∃ chain,
        _table ht !! Z.to_nat (hash k `mod` capacity ht) = Some chain ∧
        (k ∉ key <$> chain)
  | Raise ZeroDivisionError => _table ht = []
  | Raise IndexError => False
  end.
Proof.
  destruct (decide (_table ht = [])) as [Hnil|Ht].
  { by rewrite _find_empty. }
  rewrite _find_run by done. cbn [fst snd]. split; [done|].
  pose proof (chain_of_lookup k _ Ht) as Hc.
  pose proof (scan_spec k (chain_of k (_table ht)) 0) as Hs.
  destruct (scan k (chain_of k (_table ht)) 0) as [j|].
  - destruct Hs as (l1 & item & l2 & Hl & Hk & Hnot & ->).
    rewrite Z.add_0_l, !Nat2Z.id.
    split_and!; [by apply slot_of_nat|lia|].
    exists (chain_of k (_table ht)), item.
    split_and!; [done| |done|].
    + rewrite Hl. by apply list_lookup_middle.
    + rewrite Hl, take_app_length. done.
  - split; [done|]. exists (chain_of k (_table ht)).
    split; [exact Hc|done].
Qed.

(** X16. On an object whose table has no bucket every operation fails at
    the modulo: [set], [get] and [delete] raise ZeroDivisionError and leave
    the object as it is. *)
Theorem no_bucket_object k v ht :
  _table ht = [] →
  __setitem__ k v ht = (Raise ZeroDivisionError, ht) ∧
  __getitem__ k ht = (Raise ZeroDivisionError, ht) ∧
  __delitem__ k ht = (Raise ZeroDivisionError, ht).
Proof.
  intros Hnil. split_and!.
  - by apply _update_with_empty.
  - unfold __getitem__, _get, mbind, M_bind, bind. by rewrite _find_empty.
  - unfold __delitem__, _delete, mbind, M_bind, bind. by rewrite _find_empty.
Qed.

End coverage.

(** * Further instances on integer keys *)

Lemma capacity_upper_bound_witness :
  reachable (run_ops [OpSet 0 0; OpDel 0] (__init__ (K:=Z) (V:=Z) None).2).2 ∧
  capacity (run_ops [OpSet 0 0; OpDel 0] (__init__ (K:=Z) (V:=Z) None).2).2
    ≤ 4 * __len__
            (run_ops [OpSet 0 0; OpDel 0] (__init__ (K:=Z) (V:=Z) None).2).2
      + 4.
Proof.
  assert (Hr : reachable
    (run_ops [OpSet 0 0; OpDel 0] (__init__ (K:=Z) (V:=Z) None).2).2)
    by (exists None, [OpSet 0 0; OpDel 0]; reflexivity).
  split; [exact Hr|]. exact (capacity_upper_bound _ Hr).
Defined.

Lemma capacity_power_of_two_witness :
  reachable (run_ops [OpSet 0 0; OpDel 0] (__init__ (K:=Z) (V:=Z) None).2).2 ∧
  ∃ j : nat,
    capacity (run_ops [OpSet 0 0; OpDel 0] (__init__ (K:=Z) (V:=Z) None).2).2
      = 2 ^ Z.of_nat j.
Proof.
  assert (Hr : reachable
    (run_ops [OpSet 0 0; OpDel 0] (__init__ (K:=Z) (V:=Z) None).2).2)
    by (exists None, [OpSet 0 0; OpDel 0]; reflexivity).
  split; [exact Hr|]. exact (capacity_power_of_two _ Hr).
Defined.

Lemma set_capacity_witness :
  reachable (run_ops [OpSet 1 10; OpSet 2 20]
                     (__init__ (K:=Z) (V:=Z) None).2).2 ∧
  ∃ ht',
    __setitem__ 3 30
      (run_ops [OpSet 1 10; OpSet 2 20] (__init__ (K:=Z) (V:=Z) None).2).2
      = (Ok tt, ht') ∧
    capacity ht' = 8.
Proof.
  assert (Hr : reachable
    (run_ops [OpSet 1 10; OpSet 2 20] (__init__ (K:=Z) (V:=Z) None).2).2)
    by (exists None, [OpSet 1 10; OpSet 2 20]; reflexivity).
  split; [exact Hr|].
  destruct (set_capacity 3 30 _ Hr) as (ht' & Hrun & Hcap).
  exists ht'. split; [exact Hrun|exact Hcap].
Defined.

Lemma delete_capacity_witness :
  reachable (run_ops [OpSet 5 50] (__init__ (K:=Z) (V:=Z) None).2).2 ∧
  5 ∈ keys (run_ops [OpSet 5 50] (__init__ (K:=Z) (V:=Z) None).2).2 ∧
  ∃ ht',
    __delitem__ 5
      (run_ops [OpSet 5 50] (__init__ (K:=Z) (V:=Z) None).2).2
      = (Ok tt, ht') ∧
    capacity ht' = 2.
Proof.
  assert (Hr : reachable
    (run_ops [OpSet 5 50] (__init__ (K:=Z) (V:=Z) None).2).2)
    by (exists None, [OpSet 5 50]; reflexivity).
  assert (Hin : 5 ∈ keys
    (run_ops [OpSet 5 50] (__init__ (K:=Z) (V:=Z) None).2).2)
    by (apply (bool_decide_unpack _); vm_compute; exact I).
  split_and!; [exact Hr|exact Hin|].
  destruct (delete_capacity 5 _ Hr Hin) as (ht' & Hrun & Hcap).
  exists ht'. split; [exact Hrun|exact Hcap].
Defined.

Lemma construction_order_independent_witness :
  NoDup [(1, 10); (2, 20); (3, 30)].*1 ∧
  [(1, 10); (2, 20); (3, 30)] ≡ₚ [(3, 30); (1, 10); (2, 20)] ∧
  capacity (__init__ (K:=Z) (V:=Z) (Some [(1, 10); (2, 20); (3, 30)])).2
    = capacity (__init__ (Some [(3, 30); (1, 10); (2, 20)])).2.
Proof.
  assert (Hnd : NoDup [(1, 10); (2, 20); (3, 30)].*1)
    by (apply (bool_decide_unpack _); vm_compute; exact I).
  assert (Hperm : [(1, 10); (2, 20); (3, 30)] ≡ₚ [(3, 30); (1, 10); (2, 20)])
    by (symmetry; apply (Permutation_cons_append [(1, 10); (2, 20)] (3, 30))).
  split_and!; [exact Hnd|exact Hperm|].
  exact (proj2 (proj2 (construction_order_independent (K:=Z) (V:=Z)
                         _ _ Hnd Hperm))).
Defined.

Lemma other_keys_untouched_witness :
  reachable (run_ops [OpSet 5 50] (__init__ (K:=Z) (V:=Z) None).2).2 ∧
  5 ≠ 9 ∧
  (__getitem__ 5
     (__setitem__ 9 90
        (run_ops [OpSet 5 50] (__init__ (K:=Z) (V:=Z) None).2).2).2).1
    = (__getitem__ 5
         (run_ops [OpSet 5 50] (__init__ (K:=Z) (V:=Z) None).2).2).1.
Proof.
  assert (Hr : reachable
    (run_ops [OpSet 5 50] (__init__ (K:=Z) (V:=Z) None).2).2)
    by (exists None, [OpSet 5 50]; reflexivity).
  assert (Hne : 5 ≠ 9) by lia.
  split_and!; [exact Hr|exact Hne|].
  exact (proj1 (other_keys_untouched 9 5 90 _ Hr Hne)).
Defined.

Lemma set_same_value_witness :
  reachable (run_ops [OpSet 5 50] (__init__ (K:=Z) (V:=Z) None).2).2 ∧
  (5, 50) ∈ items (run_ops [OpSet 5 50] (__init__ (K:=Z) (V:=Z) None).2).2 ∧
  __setitem__ 5 50 (run_ops [OpSet 5 50] (__init__ (K:=Z) (V:=Z) None).2).2
    = (Ok tt, (run_ops [OpSet 5 50] (__init__ (K:=Z) (V:=Z) None).2).2).
Proof.
  assert (Hr : reachable
    (run_ops [OpSet 5 50] (__init__ (K:=Z) (V:=Z) None).2).2)
    by (exists None, [OpSet 5 50]; reflexivity).
  assert (Hin : (5, 50) ∈ items
    (run_ops [OpSet 5 50] (__init__ (K:=Z) (V:=Z) None).2).2)
    by (apply (bool_decide_unpack _); vm_compute; exact I).
  split_and!; [exact Hr|exact Hin|]. exact (set_same_value 5 50 _ Hr Hin).
Defined.

Lemma set_delete_restores_witness :
  reachable (run_ops [OpSet 5 50] (__init__ (K:=Z) (V:=Z) None).2).2 ∧
  (9 ∉ keys (run_ops [OpSet 5 50] (__init__ (K:=Z) (V:=Z) None).2).2) ∧
  ∃ ht1 ht2,
    __setitem__ 9 90
      (run_ops [OpSet 5 50] (__init__ (K:=Z) (V:=Z) None).2).2
      = (Ok tt, ht1) ∧
    __delitem__ 9 ht1 = (Ok tt, ht2) ∧
    __len__ ht2 = 1.
Proof.
  assert (Hr : reachable
    (run_ops [OpSet 5 50] (__init__ (K:=Z) (V:=Z) None).2).2)
    by (exists None, [OpSet 5 50]; reflexivity).
  assert (Hnot : 9 ∉ keys
    (run_ops [OpSet 5 50] (__init__ (K:=Z) (V:=Z) None).2).2)
    by (apply (bool_decide_unpack _); vm_compute; exact I).
  split_and!; [exact Hr|exact Hnot|].
  destruct (set_delete_restores 9 90 _ Hr Hnot)
    as (ht1 & ht2 & Hset & Hdel & _ & Hlen).
  exists ht1, ht2. split_and!; [exact Hset|exact Hdel|exact Hlen].
Defined.

Lemma delete_keeps_order_witness :
  reachable (run_ops [OpSet 1 10; OpSet 2 20; OpSet 3 30]
                     (__init__ (K:=Z) (V:=Z) None).2).2 ∧
  (2, 20) ∈ items (run_ops [OpSet 1 10; OpSet 2 20; OpSet 3 30]
                           (__init__ (K:=Z) (V:=Z) None).2).2 ∧
  capacity (run_ops [OpSet 1 10; OpSet 2 20; OpSet 3 30]
                    (__init__ (K:=Z) (V:=Z) None).2).2
    ≤ 4 * (__len__ (run_ops [OpSet 1 10; OpSet 2 20; OpSet 3 30]
                            (__init__ (K:=Z) (V:=Z) None).2).2 - 1) ∧
  ∃ ht' before after,
    __delitem__ 2 (run_ops [OpSet 1 10; OpSet 2 20; OpSet 3 30]
                           (__init__ (K:=Z) (V:=Z) None).2).2
      = (Ok tt, ht') ∧
    items ht' = before ++ after.
Proof.
  assert (Hr : reachable
    (run_ops [OpSet 1 10; OpSet 2 20; OpSet 3 30]
             (__init__ (K:=Z) (V:=Z) None).2).2)
    by (exists None, [OpSet 1 10; OpSet 2 20; OpSet 3 30]; reflexivity).
  assert (Hin : (2, 20) ∈ items
    (run_ops [OpSet 1 10; OpSet 2 20; OpSet 3 30]
             (__init__ (K:=Z) (V:=Z) None).2).2)
    by (apply (bool_decide_unpack _); vm_compute; exact I).
  assert (Hbig : capacity
    (run_ops [OpSet 1 10; OpSet 2 20; OpSet 3 30]
             (__init__ (K:=Z) (V:=Z) None).2).2
    ≤ 4 * (__len__ (run_ops [OpSet 1 10; OpSet 2 20; OpSet 3 30]
                            (__init__ (K:=Z) (V:=Z) None).2).2 - 1))
    by (apply (bool_decide_unpack _); vm_compute; exact I).
  split_and!; [exact Hr|exact Hin|exact Hbig|].
  destruct (delete_keeps_order 2 20 _ Hr Hin Hbig)
    as (ht' & before & after & Hrun & _ & Hitems).
  exists ht', before, after. split; [exact Hrun|exact Hitems].
Defined.

Lemma set_appends_to_chain_witness :
  reachable (__init__ (K:=Z) (V:=Z) None).2 ∧
  (5 ∉ keys (__init__ (K:=Z) (V:=Z) None).2) ∧
  2 * (__len__ (__init__ (K:=Z) (V:=Z) None).2 + 1)
    ≤ capacity (__init__ (K:=Z) (V:=Z) None).2 ∧
  ∃ ht', __setitem__ 5 50 (__init__ (K:=Z) (V:=Z) None).2 = (Ok tt, ht') ∧
         __len__ ht' = 1.
Proof.
  assert (Hr : reachable (__init__ (K:=Z) (V:=Z) None).2)
    by (exists None, []; reflexivity).
  assert (Hnot : 5 ∉ keys (__init__ (K:=Z) (V:=Z) None).2)
    by (apply (bool_decide_unpack _); vm_compute; exact I).
  assert (Hroom : 2 * (__len__ (__init__ (K:=Z) (V:=Z) None).2 + 1)
                  ≤ capacity (__init__ (K:=Z) (V:=Z) None).2)
    by (apply (bool_decide_unpack _); vm_compute; exact I).
  split_and!; [exact Hr|exact Hnot|exact Hroom|].
  destruct (set_appends_to_chain 5 50 _ Hr Hnot Hroom)
    as (ht' & i & chain & Hrun & _ & _ & _ & Hlen).
  exists ht'. split; [exact Hrun|exact Hlen].
Defined.

Lemma no_bucket_object_witness :
  _table {| _table := @nil (list (_Item (K:=Z) (V:=Z)));
            _count_items := 0 |} = [] ∧
  __getitem__ (K:=Z) (V:=Z) 7 {| _table := []; _count_items := 0 |}
    = (Raise ZeroDivisionError, {| _table := []; _count_items := 0 |}).
Proof.
  assert (Hnil : _table {| _table := @nil (list (_Item (K:=Z) (V:=Z)));
                           _count_items := 0 |} = []) by reflexivity.
  split; [exact Hnil|].
  exact (proj1 (proj2 (no_bucket_object 7 0 _ Hnil))).
Defined.
